(** * cherry-quick: a shallow embedding of [cherry-quick.mjs]

    The script asks git which commits of a branch can be cherry-picked onto
    another one, lets the user choose some of them in an interactive list and
    prints the shell commands that would cherry-pick them.  This file embeds
    the script function by function and proves properties of the embedding.

    Conventions of the embedding:
    - a JavaScript string is the list of its UTF-16 code units ([jsstring]);
    - [undefined] is [None];
    - a number that holds a time stamp is an integer of [Z]: git prints the
      [%at] of a commit as a decimal numeral, so that [NaN] and fractions
      have no place in the model;
    - what the script prints, runs and asks is recorded as a trace of
      [Event]s, and the way it ends as a [Completion];
    - [parseArgs], the prompts of Enquirer, the shell and the clipboard are
      not embedded: their results are given by a [World].  The [rows] option
      of the prompt and the elapsed time that [executeShellCommand] prints
      are left out. *)

From Stdlib Require Import Strings.String Strings.Ascii.
From Stdlib Require Import List ZArith NArith Bool Lia.
From Stdlib Require Import Sorting.Permutation Sorting.Sorted.
From Stdlib Require Numbers.DecimalString.
Import ListNotations.

Local Open Scope Z_scope.
Local Open Scope list_scope.

(** ** JavaScript strings *)

Module Js.

(** A UTF-16 code unit. *)
Definition char : Type := N.

Definition jsstring : Type := list char.

(** The code units of an ASCII literal of the source. *)
Definition js (s : string) : jsstring :=
  List.map N_of_ascii (list_ascii_of_string s).

Definition char_eqb (a b : char) : bool := N.eqb a b.

Fixpoint eqb (a b : jsstring) : bool :=
  match a, b with
  | [], [] => true
  | x :: a', y :: b' => char_eqb x y && eqb a' b'
  | _, _ => false
  end.

(** [s.length] *)
Definition length (s : jsstring) : Z := Z.of_nat (List.length s).

(** White space and line terminators of ECMAScript, the code units that
    [String.prototype.trim] removes. *)
Definition is_whitespace (c : char) : bool :=
  ((9 <=? c) && (c <=? 13) || (c =? 32) || (c =? 160) || (c =? 5760)
   || (8192 <=? c) && (c <=? 8202) || (c =? 8232) || (c =? 8233)
   || (c =? 8239) || (c =? 8287) || (c =? 12288) || (c =? 65279))%N.

(** [\w] of a regular expression without flags: [A-Za-z0-9_]. *)
Definition is_word (c : char) : bool :=
  ((65 <=? c) && (c <=? 90) || (97 <=? c) && (c <=? 122)
   || (48 <=? c) && (c <=? 57) || (c =? 95))%N.

Fixpoint trimStart (s : jsstring) : jsstring :=
  match s with
  | [] => []
  | c :: r => if is_whitespace c then trimStart r else s
  end.

Fixpoint trimEnd (s : jsstring) : jsstring :=
  match s with
  | [] => []
  | c :: r =>
      match trimEnd r with
      | [] => if is_whitespace c then [] else [c]
      | r' => c :: r'
      end
  end.

(** [s.trim()] *)
Definition trim (s : jsstring) : jsstring := trimEnd (trimStart s).

(** The relative index arithmetic of [slice]: a negative index counts from
    the end, and the result is clamped to [0 .. len]. *)
Definition clamp_index (len i : Z) : Z :=
  if i <? 0 then Z.max (len + i) 0 else Z.min i len.

(** [s.slice(start, end)] *)
Definition slice (s : jsstring) (start end_ : Z) : jsstring :=
  let len := length s in
  let from := clamp_index len start in
  let to := clamp_index len end_ in
  firstn (Z.to_nat (to - from)) (skipn (Z.to_nat from) s).

(** [s.slice(start)] *)
Definition slice_from (s : jsstring) (start : Z) : jsstring :=
  slice s start (length s).

(** [s.startsWith(p)] *)
Fixpoint startsWith (s p : jsstring) {struct p} : bool :=
  match p, s with
  | [], _ => true
  | x :: p', y :: s' => char_eqb x y && startsWith s' p'
  | _ :: _, [] => false
  end.

(** [s.includes(sub)] *)
Fixpoint includes (s sub : jsstring) : bool :=
  startsWith s sub ||
  match s with
  | [] => false
  | _ :: r => includes r sub
  end.

(** [s.indexOf(c)] for a one-character pattern; [-1] when absent. *)
Fixpoint indexOf_from (s : jsstring) (c : char) (i : Z) : Z :=
  match s with
  | [] => -1
  | x :: r => if char_eqb x c then i else indexOf_from r c (i + 1)
  end.

Definition indexOf (s : jsstring) (c : char) : Z := indexOf_from s c 0.

(** [s.replaceAll(c, (match, index) => f(index))] for a one-character
    pattern [c]: every occurrence is replaced by what the callback returns
    for the index of the occurrence. *)
Fixpoint replaceAll_from (s : jsstring) (c : char) (f : Z -> jsstring) (i : Z)
  : jsstring :=
  match s with
  | [] => []
  | x :: r =>
      (if char_eqb x c then f i else [x]) ++ replaceAll_from r c f (i + 1)
  end.

Definition replaceAll (s : jsstring) (c : char) (f : Z -> jsstring) : jsstring :=
  replaceAll_from s c f 0.

(** [s.replaceAll(/[^\w]/g, '')] *)
Definition stripNonWord (s : jsstring) : jsstring := List.filter is_word s.

(** [parts.join(sep)] on an array of strings. *)
Fixpoint join (parts : list jsstring) (sep : jsstring) : jsstring :=
  match parts with
  | [] => []
  | [p] => p
  | p :: rest => p ++ sep ++ join rest sep
  end.

(** [s.split(sep)] for a separator that is not empty (the script splits at a
    line feed and at [":;:"]).  [skip] counts the code units of a separator
    that was just recognised and is still to be passed over; [acc] is the
    current piece, reversed. *)
Fixpoint split_aux (sep : jsstring) (skip : nat) (s acc : jsstring)
  : list jsstring :=
  match s with
  | [] => [rev acc]
  | c :: r =>
      match skip with
      | S k => split_aux sep k r acc
      | O =>
          if startsWith s sep
          then rev acc :: split_aux sep (Nat.pred (List.length sep)) r []
          else split_aux sep O r (c :: acc)
      end
  end.

Definition split (s sep : jsstring) : list jsstring := split_aux sep O s [].

(** A template literal prints [undefined] as the word. *)
Definition interpolate (v : option jsstring) : jsstring :=
  match v with
  | Some s => s
  | None => js "undefined"
  end.

(** Truthiness of a value that is a string or [undefined]. *)
Definition truthy (v : option jsstring) : bool :=
  match v with
  | Some (_ :: _) => true
  | _ => false
  end.

(** [a || b] on such values. *)
Definition or_else (a b : option jsstring) : option jsstring :=
  if truthy a then a else b.

(** [a === b] on such values. *)
Definition strict_eq (a b : option jsstring) : bool :=
  match a, b with
  | Some x, Some y => eqb x y
  | None, None => true
  | _, _ => false
  end.

(** [array[i]]: [undefined] outside of the array, also for a negative [i]. *)
Definition at_index {A : Type} (l : list A) (i : Z) : option A :=
  if i <? 0 then None else nth_error l (Z.to_nat i).

(** [array.map((x, i, array) => f(x, i, array))] *)
Fixpoint mapi_from {A B : Type} (f : A -> Z -> B) (i : Z) (l : list A) : list B :=
  match l with
  | [] => []
  | x :: r => f x i :: mapi_from f (i + 1) r
  end.

Definition mapi {A B : Type} (f : A -> Z -> list A -> B) (l : list A) : list B :=
  mapi_from (fun x i => f x i l) 0 l.

(** [array.flatMap((x, i, array) => f(x, i, array))] *)
Definition flatMapi {A B : Type} (f : A -> Z -> list A -> list B) (l : list A)
  : list B :=
  concat (mapi f l).

(** [array.filter((x, i, array) => f(x, i, array))] *)
Fixpoint filteri_from {A : Type} (f : A -> Z -> bool) (i : Z) (l : list A)
  : list A :=
  match l with
  | [] => []
  | x :: r =>
      if f x i then x :: filteri_from f (i + 1) r else filteri_from f (i + 1) r
  end.

Definition filteri {A : Type} (f : A -> Z -> list A -> bool) (l : list A) : list A :=
  filteri_from (fun x i => f x i l) 0 l.

End Js.

Import Js.

(** The ellipsis U+2026 that [truncate] appends. *)
Definition ellipsis : char := 8230%N.

Definition hyphen : char := 45%N.
Definition space : char := 32%N.
Definition line_feed : char := 10%N.

(** ** The utilities of the script *)

(** [truncate(text, length)] *)
Definition truncate (text : jsstring) (length : Z) : jsstring :=
  if Js.length text >? length
  then trim (slice text 0 (length - 1)) ++ [ellipsis]
  else text.

(** [generatePullRequestTitleFromBranch(branch)] *)
Definition generatePullRequestTitleFromBranch (branch : jsstring) : jsstring :=
  let firstDashIndex := indexOf branch hyphen in
  replaceAll branch hyphen
    (fun index => if negb (index =? firstDashIndex) then [space] else [hyphen]).

(** ** Dates

    The time value of a [Date] is a number of milliseconds since the epoch;
    the functions below are the day and calendar arithmetic of ECMAScript
    (the proleptic Gregorian calendar). *)

Module JsDate.

Definition msPerDay : Z := 86400000.

(** The largest time value a [Date] holds; [new Date(v)] is invalid beyond. *)
Definition maxTime : Z := 8640000000000000.

(** [Day(t)] *)
Definition Day (t : Z) : Z := t / msPerDay.

(** [WeekDay(t)], 0 for Sunday. *)
Definition WeekDay (t : Z) : Z := (Day t + 4) mod 7.

(** Year, month (0 for January) and day of the month (from 1) of the day
    that is [days] days after 1 January 1970. *)
Definition civil_of_days (days : Z) : Z * Z * Z :=
  let z := days + 719468 in
  let era := z / 146097 in
  let doe := z - era * 146097 in
  let yoe := (doe - doe / 1460 + doe / 36524 - doe / 146096) / 365 in
  let doy := doe - (365 * yoe + yoe / 4 - yoe / 100) in
  let mp := (5 * doy + 2) / 153 in
  let d := doy - (153 * mp + 2) / 5 + 1 in
  let m := if mp <? 10 then mp + 3 else mp - 9 in
  let y := yoe + era * 400 + (if m <=? 2 then 1 else 0) in
  (y, m - 1, d).

Definition YearFromTime (t : Z) : Z := fst (fst (civil_of_days (Day t))).
Definition MonthFromTime (t : Z) : Z := snd (fst (civil_of_days (Day t))).
Definition DateFromTime (t : Z) : Z := snd (civil_of_days (Day t)).

(** A [Date] object: its time value, or [None] for an invalid date. *)
Definition Date : Type := option Z.

(** [new Date(value)] for a number [value]. *)
Definition new_Date (value : Z) : Date :=
  if Z.abs value <=? maxTime then Some value else None.

Definition decimal (n : Z) : jsstring :=
  js (DecimalString.NilZero.string_of_uint (N.to_uint (Z.to_N n))).

(** The digits of [n], padded with zeros at the left up to [width]. *)
Definition padded (width : nat) (n : Z) : jsstring :=
  let d := decimal n in
  repeat 48%N (width - List.length d) ++ d.

Definition weekday_name (d : Z) : jsstring :=
  js (nth (Z.to_nat d)
        ["Sun"; "Mon"; "Tue"; "Wed"; "Thu"; "Fri"; "Sat"]%string ""%string).

Definition month_name (m : Z) : jsstring :=
  js (nth (Z.to_nat m)
        ["Jan"; "Feb"; "Mar"; "Apr"; "May"; "Jun";
         "Jul"; "Aug"; "Sep"; "Oct"; "Nov"; "Dec"]%string ""%string).

(** [DateString(tv)] of ECMAScript on a local time value. *)
Definition DateString (tv : Z) : jsstring :=
  let yv := YearFromTime tv in
  weekday_name (WeekDay tv) ++ [space] ++
  month_name (MonthFromTime tv) ++ [space] ++
  padded 2 (DateFromTime tv) ++ [space] ++
  (if yv <? 0 then [hyphen] else []) ++ padded 4 (Z.abs yv).

End JsDate.

Import JsDate.

(** ** What the script takes from its runtime and its libraries

    [toLowerCase] is [String.prototype.toLowerCase], [Number] the conversion
    of the digits git prints for a time stamp, [LocalTZA] the offset in
    milliseconds of the local time zone at a time value, [dim] and [green]
    the styles of ansi-colors applied to a string or to [undefined]. *)

Class Runtime : Type := {
  toLowerCase : jsstring -> jsstring;
  Number : jsstring -> Z;
  LocalTZA : Z -> Z;
  dim : option jsstring -> jsstring;
  green : option jsstring -> jsstring
}.

(** [date.getDate()]: the day of the month in local time, [None] for the
    [NaN] of an invalid date. *)
Definition getDate `{Runtime} (date : Date) : option Z :=
  match date with
  | Some t => Some (DateFromTime (t + LocalTZA t))
  | None => None
  end.

(** [date.getMonth()] and [date.getFullYear()] in local time. *)
Definition getMonth `{Runtime} (date : Date) : option Z :=
  match date with
  | Some t => Some (MonthFromTime (t + LocalTZA t))
  | None => None
  end.

Definition getFullYear `{Runtime} (date : Date) : option Z :=
  match date with
  | Some t => Some (YearFromTime (t + LocalTZA t))
  | None => None
  end.

(** [a !== b] on two numbers that may be [NaN]: [NaN] differs from
    everything, itself included. *)
Definition number_neq (a b : option Z) : bool :=
  match a, b with
  | Some x, Some y => negb (x =? y)
  | _, _ => true
  end.

(** [date.toDateString()] *)
Definition toDateString `{Runtime} (date : Date) : jsstring :=
  match date with
  | Some t => DateString (t + LocalTZA t)
  | None => js "Invalid Date"
  end.

(** [formatDate(date)] *)
Definition formatDate `{Runtime} (date : Date) : jsstring := toDateString date.

(** ** Data *)

(** A commit as [getLatestCommits] builds it.  The destructuring of a log
    line leaves [undefined] in the fields the line is too short for. *)
Record Commit : Type := mkCommit {
  branch : jsstring;
  timestamp : Z;
  hash : option jsstring;
  fullHash : option jsstring;
  author : option jsstring;
  message : jsstring
}.

(** An entry of the interactive list: a separator
    [{ role: 'separator', message }] or a selectable entry
    [{ name, message, query, indicator }]. *)
Inductive Choice : Type :=
| Separator (label : option jsstring)
| Entry (name : option jsstring) (text query indicator : jsstring).

Definition is_separator (choice : Choice) : bool :=
  match choice with
  | Separator _ => true
  | Entry _ _ _ _ => false
  end.

(** ** Effects

    A run of the script is a trace of events and a completion. *)

Inductive Event : Type :=
| console_log (text : jsstring)
| console_log_returned (lines : Z)
| execSync (command : jsstring)
| AutoComplete_run (choices : list Choice)
| Confirm_run
| clipboard_writeSync (text : jsstring).

Inductive JsError : Type :=
| Error (msg : jsstring)
| TypeError
| ExecError (command : jsstring)
| PromptRejected
| ClipboardError.

Inductive Completion (A : Type) : Type :=
| Normal (a : A)
| Throw (e : JsError)
| ProcessExit (code : Z).

Arguments Normal {A} a.
Arguments Throw {A} e.
Arguments ProcessExit {A} code.

Definition M (A : Type) : Type := (list Event * Completion A)%type.

Definition ret {A : Type} (a : A) : M A := ([], Normal a).

Definition bind {A B : Type} (m : M A) (k : A -> M B) : M B :=
  match m with
  | (t, Normal a) => let (t', r) := k a in (t ++ t', r)
  | (t, Throw e) => (t, Throw e)
  | (t, ProcessExit c) => (t, ProcessExit c)
  end.

Definition emit (e : Event) : M unit := ([e], Normal tt).
Definition throw {A : Type} (e : JsError) : M A := ([], Throw e).
Definition process_exit {A : Type} (code : Z) : M A := ([], ProcessExit code).

Notation "x <- m ;; k" := (bind m (fun x => k))
  (at level 61, m at next level, right associativity).
Notation "m ;; k" := (bind m (fun _ => k))
  (at level 61, right associativity).

(** [array.map(f)] for a callback that may throw. *)
Fixpoint mapM {A B : Type} (f : A -> M B) (l : list A) : M (list B) :=
  match l with
  | [] => ret []
  | x :: r => y <- f x ;; ys <- mapM f r ;; ret (y :: ys)
  end.

Definition trace {A : Type} (m : M A) : list Event := fst m.
Definition completion {A : Type} (m : M A) : Completion A := snd m.

(** The status the process ends with: the argument of [process.exit], 1 for
    an error nobody caught, 0 when the module runs to its end. *)
Definition exit_status {A : Type} (c : Completion A) : Z :=
  match c with
  | Normal _ => 0
  | Throw _ => 1
  | ProcessExit code => code
  end.

(** [array.map(f)] for a callback that takes the index and may throw, and
    [array.flatMap] alike. *)
Fixpoint sequence {A : Type} (l : list (M A)) : M (list A) :=
  match l with
  | [] => ret []
  | m :: r => y <- m ;; ys <- sequence r ;; ret (y :: ys)
  end.

Definition flatMapiM {A B : Type} (f : A -> Z -> list A -> M (list B))
  (l : list A) : M (list B) :=
  xs <- sequence (mapi f l) ;; ret (List.concat xs).

(** [array.filter(Boolean)] on an array of strings and [undefined]s, and on
    an array of objects and [false]s. *)
Fixpoint filter_Boolean_strings (l : list (option jsstring)) : list jsstring :=
  match l with
  | [] => []
  | Some (c :: s) :: r => (c :: s) :: filter_Boolean_strings r
  | _ :: r => filter_Boolean_strings r
  end.

Fixpoint filter_Boolean {A : Type} (l : list (option A)) : list A :=
  match l with
  | [] => []
  | Some x :: r => x :: filter_Boolean r
  | None :: r => filter_Boolean r
  end.

(** ** The world of one run

    The environment variables and the parsed arguments the script reads,
    what the shell answers to a command ([None] when [execSync] throws), what
    the user does in the two prompts ([None] when a prompt is cancelled) and
    whether the clipboard accepts a text. *)

Record World : Type := mkWorld {
  env_CHERRY_QUICK_DEFAULT_FROM_BRANCH : option jsstring;
  env_CHERRY_QUICK_DEFAULT_INCLUDE_BRANCH : option jsstring;
  env_CHERRY_QUICK_DEFAULT_TO_BRANCH : option jsstring;
  values_from : option jsstring;
  values_to : option jsstring;
  values_include : option jsstring;
  values_branch : option jsstring;
  values_help : bool;
  shell : jsstring -> option jsstring;
  autocomplete : list Choice -> option (list jsstring);
  confirm : option bool;
  clipboard : jsstring -> bool
}.

Definition quote : char := 34%N.
Definition backslash : char := 92%N.

(** ** The queries *)

(** [executeShellCommand(command)]; the elapsed time it prints is left out
    of the event. *)
Definition executeShellCommand (w : World) (command : jsstring) : M jsstring :=
  emit (console_log (js "> " ++ command)) ;;
  emit (execSync command) ;;
  match shell w command with
  | None => throw (ExecError command)
  | Some result =>
      emit (console_log_returned
              (Z.of_nat (List.length (split result [line_feed])))) ;;
      ret result
  end.

Definition cherry_query (fromBranch toBranch : jsstring) : jsstring :=
  js "git cherry origin/" ++ toBranch ++ js " origin/" ++ fromBranch.

(** What [getCherryPickableFullHashes] makes of the output of the query:
    the lines that start with a plus sign, without their first two code
    units. *)
Definition plusLines (result : jsstring) : list jsstring :=
  List.map (fun line => slice_from line 2)
    (List.filter (fun line => startsWith line (js "+"))
       (split result [line_feed])).

(** [getCherryPickableFullHashes(fromBranch, toBranch)] *)
Definition getCherryPickableFullHashes (w : World) (fromBranch toBranch : jsstring)
  : M (list jsstring) :=
  result <- executeShellCommand w (cherry_query fromBranch toBranch) ;;
  ret (plusLines result).

Definition delimiter : jsstring := js ":;:".

Definition log_query (fromBranch toBranch : jsstring) : jsstring :=
  js "git --no-pager log --pretty=format:" ++ [quote] ++
  js "%at" ++ delimiter ++ js "%h" ++ delimiter ++ js "%H" ++ delimiter ++
  js "%an" ++ delimiter ++ js "%s" ++ [quote] ++
  js " origin/" ++ fromBranch ++ js " --not origin/" ++ toBranch.

(** The callback of [getLatestCommits] on one line of the log. *)
Definition parseLogLine `{Runtime} (fromBranch line : jsstring) : Commit :=
  let fields := split line delimiter in
  {| branch := fromBranch;
     timestamp := Number (hd [] fields) * 1000;
     hash := nth_error fields 1;
     fullHash := nth_error fields 2;
     author := nth_error fields 3;
     message := join (skipn 4 fields) delimiter |}.

Definition parseLog `{Runtime} (fromBranch result : jsstring) : list Commit :=
  List.map (parseLogLine fromBranch) (split result [line_feed]).

(** [getLatestCommits(fromBranch, toBranch)] *)
Definition getLatestCommits `{Runtime} (w : World) (fromBranch toBranch : jsstring)
  : M (list Commit) :=
  result <- executeShellCommand w (log_query fromBranch toBranch) ;;
  ret (parseLog fromBranch result).

(** ** The interactive list *)

(** The [suggest] option of the prompt. *)
Definition suggest `{Runtime} (typed : jsstring) (choices : list Choice)
  : list Choice :=
  filteri
    (fun choice i choices =>
       if negb (is_separator choice) then true
       else
         match at_index choices (i + 1) with
         | None => false
         | Some next => if is_separator next then false else true
         end)
    (List.filter
       (fun choice =>
          match choice with
          | Separator _ => true
          | Entry _ _ query _ => includes query (toLowerCase typed)
          end)
       choices).

(** The label of a commit in the list (the [message] constant of the
    callback).  [truncate] reads [text.length], which throws on the
    [undefined] author of a short log line. *)
Definition entryMessage `{Runtime} (includeBranch : option jsstring)
  (includeBranchCherryPickableFullHashes : list jsstring) (commit : Commit)
  : M jsstring :=
  let marker :=
    if truthy includeBranch
    then Some (if existsb (fun h => strict_eq (Some h) (fullHash commit))
                    includeBranchCherryPickableFullHashes
               then dim includeBranch
               else green includeBranch)
    else None in
  match author commit with
  | None => throw TypeError
  | Some who =>
      ret (join
             (filter_Boolean_strings
                [marker;
                 Some (dim (hash commit));
                 Some (truncate (message commit) 80);
                 Some (dim (Some (truncate who 20)))])
             [space])
  end.

(** The search key of a commit. *)
Definition entryQuery `{Runtime} (commit : Commit) : jsstring :=
  toLowerCase
    (stripNonWord
       (interpolate (hash commit) ++ [space] ++ message commit ++
        js " by " ++ interpolate (author commit))).

(** The first element of the array the callback returns: a separator with
    a date, or [false]. *)
Definition dateSeparator `{Runtime} (commit : Commit) (i : Z)
  (commits : list Commit) : option Choice :=
  let prevCommitDate :=
    match at_index commits (i - 1) with
    | Some prev => Some (new_Date (timestamp prev))
    | None => None
    end in
  let currCommitDate := new_Date (timestamp commit) in
  if match prevCommitDate with
     | None => true
     | Some prev => number_neq (getDate currCommitDate) (getDate prev)
     end
  then Some (Separator
               (Some (formatDate
                        match prevCommitDate with
                        | Some prev => prev
                        | None => currCommitDate
                        end)))
  else None.

(** The [choices] option of the prompt. *)
Definition choices `{Runtime} (includeBranch : option jsstring)
  (includeBranchCherryPickableFullHashes : list jsstring)
  (fromBranchCherryPickableCommits : list Commit) : M (list Choice) :=
  entries <-
    flatMapiM
      (fun commit i commits =>
         text <- entryMessage includeBranch
                   includeBranchCherryPickableFullHashes commit ;;
         ret [dateSeparator commit i commits;
              Some (Entry (fullHash commit) text (entryQuery commit) (js ">"))])
      fromBranchCherryPickableCommits ;;
  ret (filter_Boolean (entries ++ [Some (Separator None)])).

(** ** The commands *)

(** The comparator of the sort, [(a, b) => a.timestamp - b.timestamp]. *)
Definition byTimestamp (a b : Commit) : Z := timestamp a - timestamp b.

(** [Array.prototype.sort] is stable: an element goes before the first one
    the comparator puts strictly after it. *)
Fixpoint insert {A : Type} (cmp : A -> A -> Z) (x : A) (l : list A) : list A :=
  match l with
  | [] => [x]
  | y :: r => if cmp x y >? 0 then y :: insert cmp x r else x :: l
  end.

Definition sort_defined {A : Type} (cmp : A -> A -> Z) (l : list A) : list A :=
  fold_right (insert cmp) [] l.

Definition undefineds {A : Type} (l : list (option A)) : list (option A) :=
  List.filter (fun x => match x with None => true | Some _ => false end) l.

(** [array.sort(cmp)]: the comparator is not called on [undefined], which
    goes to the end of the array. *)
Definition Array_sort {A : Type} (cmp : A -> A -> Z) (l : list (option A))
  : list (option A) :=
  List.map Some (sort_defined cmp (filter_Boolean l)) ++ undefineds l.

(** [fromBranchCherryPickableCommits.find(c => c.fullHash === fullHash)] *)
Definition findCommit (commits : list Commit) (wanted : jsstring)
  : option Commit :=
  List.find (fun c => strict_eq (fullHash c) (Some wanted)) commits.

(** The [cherryPickCommits] constant: the records of the selected hashes,
    sorted by time stamp. *)
Definition cherryPickCommits (cherryPickCommitsFullHashes : list jsstring)
  (fromBranchCherryPickableCommits : list Commit) : list (option Commit) :=
  Array_sort byTimestamp
    (List.map (findCommit fromBranchCherryPickableCommits)
       cherryPickCommitsFullHashes).

(** [c => `git cherry-pick ${c.fullHash}`]; reading a property of
    [undefined] throws. *)
Definition cherryPickLine (c : option Commit) : M jsstring :=
  match c with
  | Some c => ret (js "git cherry-pick " ++ interpolate (fullHash c))
  | None => throw TypeError
  end.

Definition switchLine (cherryPickBranch toBranch : jsstring) : jsstring :=
  js "git switch -c " ++ cherryPickBranch ++ js " origin/" ++ toBranch.

Definition pushLine (cherryPickBranch : jsstring) : jsstring :=
  js "git push -u origin " ++ cherryPickBranch.

Definition prLine (cherryPickBranch toBranch : jsstring) : jsstring :=
  js "gh pr create -a @me -t " ++ [quote] ++
  generatePullRequestTitleFromBranch cherryPickBranch ++ [quote] ++
  js " -B " ++ toBranch ++ js " -H " ++ cherryPickBranch ++ js " -w".

(** What joins the commands: [' && \\\n']. *)
Definition chain : jsstring := js " && " ++ [backslash; line_feed].

(** The [command] constant. *)
Definition command (cherryPickBranch : option jsstring) (toBranch : jsstring)
  (cherryPickCommits : list (option Commit)) : M jsstring :=
  let before :=
    if truthy cherryPickBranch
    then [switchLine (interpolate cherryPickBranch) toBranch]
    else [] in
  picks <- mapM cherryPickLine cherryPickCommits ;;
  let after :=
    if truthy cherryPickBranch
    then [pushLine (interpolate cherryPickBranch);
          prLine (interpolate cherryPickBranch) toBranch]
    else [] in
  ret (trim (join (before ++ picks ++ after) chain)).

(** ** The script *)

(** [a || b] when [b] is a string. *)
Definition or_default (a : option jsstring) (b : jsstring) : jsstring :=
  match or_else a (Some b) with
  | Some s => s
  | None => b
  end.

Definition DEFAULT_FROM_BRANCH (w : World) : jsstring :=
  or_default (env_CHERRY_QUICK_DEFAULT_FROM_BRANCH w) (js "dev").

Definition DEFAULT_INCLUDE_BRANCH (w : World) : option jsstring :=
  env_CHERRY_QUICK_DEFAULT_INCLUDE_BRANCH w.

Definition DEFAULT_TO_BRANCH (w : World) : jsstring :=
  or_default (env_CHERRY_QUICK_DEFAULT_TO_BRANCH w) (js "master").

Definition helpText (w : World) : jsstring :=
  join
    [ [];
      js "Quickly select commits to cherry-pick.";
      js "Search commits by typing part of message or author's name.";
      [];
      js "This command automatically prepends each branch with 'origin/' prefix.";
      js "This command does not perform any modification actions.";
      [];
      js "Arguments:";
      js "  --from, -f: branch to pick commits from (default: "
        ++ DEFAULT_FROM_BRANCH w ++ js ")";
      js "  --to, -t: name of the target branch (default: "
        ++ DEFAULT_TO_BRANCH w ++ js ")";
      js "  --include, -i: mark commits that are already merged to this branch ("
        ++ (if truthy (DEFAULT_INCLUDE_BRANCH w)
            then js "default: " ++ interpolate (DEFAULT_INCLUDE_BRANCH w)
            else js "optional")
        ++ js ")";
      js "  --branch, -b: name of a cherry-pick branch (optional)";
      [];
      js "Usage:";
      js "  Pick commits from '" ++ DEFAULT_FROM_BRANCH w
        ++ js "' branch that are not in the '" ++ DEFAULT_TO_BRANCH w
        ++ js "' branch:'";
      js "  $ cherry-quick";
      [];
      js "  Specify 'from' and 'to' branches:";
      js "  $ cherry-quick --from release-dev";
      js "  $ cherry-quick --to release-dev";
      [];
      js "  Mark commits that were already merged into 'release-dev':";
      js "  $ cherry-quick --include release-dev";
      [];
      js "  Generate commands for creating a new branch and PR on GitHub:";
      js "  $ cherry-quick --branch HRIS-123-CP-PROD";
      [] ]
    [line_feed].

Definition fromBranch (w : World) : jsstring :=
  or_default (values_from w) (DEFAULT_FROM_BRANCH w).

Definition toBranch (w : World) : jsstring :=
  or_default (values_to w) (DEFAULT_TO_BRANCH w).

Definition includeBranch (w : World) : option jsstring :=
  or_else (values_include w) (DEFAULT_INCLUDE_BRANCH w).

Definition cherryPickBranch (w : World) : option jsstring :=
  or_else (values_branch w) None.

(** The [fromBranchCherryPickableCommits] constant: the record of every
    cherry-pickable hash, oldest first. *)
Definition fromBranchCherryPickableCommits
  (fromBranchCherryPickableFullHashes : list jsstring)
  (fromBranchCommits : list Commit) : M (list Commit) :=
  found <-
    mapM
      (fun fullHash =>
         match findCommit fromBranchCommits fullHash with
         | None => throw (Error (js "Missing commit: " ++ fullHash))
         | Some commit => ret commit
         end)
      fromBranchCherryPickableFullHashes ;;
  ret (rev found).

(** The end of the script, from the printing of the command on. *)
Definition offerClipboard (w : World) (command : jsstring) : M unit :=
  emit (console_log []) ;;
  emit (console_log command) ;;
  emit (console_log []) ;;
  emit Confirm_run ;;
  match confirm w with
  | None => throw PromptRejected
  | Some shouldCopyToClipboard =>
      if shouldCopyToClipboard
      then
        emit (clipboard_writeSync command) ;;
        if clipboard w command
        then emit (console_log (js "Copied to clipboard!"))
        else throw ClipboardError
      else ret tt
  end.

(** Lines 65 to 76: the three queries and the records of the
    cherry-pickable hashes.  The result is the pair of
    [includeBranchCherryPickableFullHashes] and
    [fromBranchCherryPickableCommits]. *)
Definition fetch `{Runtime} (w : World) : M (list jsstring * list Commit) :=
  fullHashes <- getCherryPickableFullHashes w (fromBranch w) (toBranch w) ;;
  includeFullHashes <-
    (if truthy (includeBranch w)
     then getCherryPickableFullHashes w (fromBranch w)
            (interpolate (includeBranch w))
     else ret []) ;;
  fromBranchCommits <- getLatestCommits w (fromBranch w) (toBranch w) ;;
  candidates <- fromBranchCherryPickableCommits fullHashes fromBranchCommits ;;
  ret (includeFullHashes, candidates).

(** Lines 84 to 169: the selection, the command and the clipboard. *)
Definition pick `{Runtime} (w : World) (includeFullHashes : list jsstring)
  (candidates : list Commit) : M unit :=
  list <- choices (includeBranch w) includeFullHashes candidates ;;
  emit (AutoComplete_run list) ;;
  match autocomplete w list with
  | None =>
      emit (console_log (js "Operation aborted by user")) ;; process_exit 0
  | Some selected =>
      let picked := cherryPickCommits selected candidates in
      if Z.of_nat (List.length picked) =? 0
      then emit (console_log (js "No commits were picked")) ;; process_exit 0
      else
        text <- command (cherryPickBranch w) (toBranch w) picked ;;
        offerClipboard w text
  end.

(** The module body, top to bottom. *)
Definition main `{Runtime} (w : World) : M unit :=
  if values_help w
  then emit (console_log (helpText w)) ;; process_exit 0
  else
    fetched <- fetch w ;;
    let (includeFullHashes, candidates) := fetched in
    if Z.of_nat (List.length candidates) =? 0
    then emit (console_log (js "No commits to pick from")) ;; process_exit 0
    else pick w includeFullHashes candidates.

(** ** The properties in the words of the specification

    Second definitions, written from the description of the behaviour and
    compared below with the functions embedded from the source. *)

Definition spaces_for_hyphens (s : jsstring) : jsstring :=
  List.map (fun c => if char_eqb c hyphen then space else c) s.

(** The first hyphen stays, every other hyphen becomes a space. *)
Fixpoint title_by_words (branch : jsstring) : jsstring :=
  match branch with
  | [] => []
  | c :: r =>
      if char_eqb c hyphen then hyphen :: spaces_for_hyphens r
      else c :: title_by_words r
  end.

(** A commit entry whose search key contains the lowercased query. *)
Definition matches `{Runtime} (typed : jsstring) (choice : Choice) : bool :=
  match choice with
  | Separator _ => false
  | Entry _ _ query _ => includes query (toLowerCase typed)
  end.

(** A matching entry comes before the next separator. *)
Fixpoint match_before_separator `{Runtime} (typed : jsstring)
  (rest : list Choice) : bool :=
  match rest with
  | [] => false
  | Separator _ :: _ => false
  | choice :: r => matches typed choice || match_before_separator typed r
  end.

(** Matching entries are kept; a separator is kept when a matching entry
    follows it before the next separator. *)
Fixpoint suggest_by_words `{Runtime} (typed : jsstring) (choices : list Choice)
  : list Choice :=
  match choices with
  | [] => []
  | choice :: r =>
      if (if is_separator choice then match_before_separator typed r
          else matches typed choice)
      then choice :: suggest_by_words typed r
      else suggest_by_words typed r
  end.

(** Every separator of the list is directly followed by an entry: no two
    separators are adjacent and the list does not end with one. *)
Fixpoint separators_lead (l : list Choice) : bool :=
  match l with
  | [] => true
  | Separator _ :: r =>
      match r with
      | Entry _ _ _ _ :: _ => separators_lead r
      | _ => false
      end
  | Entry _ _ _ _ :: r => separators_lead r
  end.

(** The local calendar date of a [Date]: year, month and day of the month. *)
Definition calendarDate `{Runtime} (date : Date)
  : option Z * option Z * option Z :=
  (getFullYear date, getMonth date, getDate date).

Definition has_non_word (s : jsstring) : bool :=
  existsb (fun c => negb (is_word c)) s.

Definition word_only (s : jsstring) : bool := forallb is_word s.

(** No event of a trace is a prompt or a write to the clipboard. *)
Definition asks_nothing (t : list Event) : Prop :=
  forall e, In e t ->
    match e with
    | AutoComplete_run _ | Confirm_run | clipboard_writeSync _ => False
    | _ => True
    end.

(** No event of a trace is the confirmation prompt or a write to the
    clipboard. *)
Definition offers_nothing (t : list Event) : Prop :=
  forall e, In e t ->
    match e with
    | Confirm_run | clipboard_writeSync _ => False
    | _ => True
    end.

(** ** A runtime to run the embedding on

    Node in the UTC time zone with the colours of ansi-colors switched off.
    [toLowerCase] is Unicode's lower-case mapping on ASCII, on Latin-1 and
    on the three letter-like symbols that have one (OHM SIGN U+2126,
    KELVIN SIGN U+212A and ANGSTROM SIGN U+212B); it leaves the other code
    units alone, so it is the function of JavaScript only on strings made of
    these and of caseless code units.  [Number] is the value of a decimal
    numeral. *)

Definition lower_unit (c : char) : jsstring :=
  if ((65 <=? c) && (c <=? 90))%N then [(c + 32)%N]
  else if ((192 <=? c) && (c <=? 222) && negb (c =? 215))%N then [(c + 32)%N]
  else if (c =? 8486)%N then [969%N]
  else if (c =? 8490)%N then [107%N]
  else if (c =? 8491)%N then [229%N]
  else [c].

Definition decimal_value (s : jsstring) : Z :=
  fold_left (fun acc c => 10 * acc + (Z.of_N c - 48)) s 0.

Definition unstyled (v : option jsstring) : jsstring :=
  match v with
  | Some s => s
  | None => []
  end.

Definition node_UTC : Runtime :=
  {| toLowerCase := flat_map lower_unit;
     Number := decimal_value;
     LocalTZA := fun _ => 0;
     dim := unstyled;
     green := unstyled |}.

(** ** Inputs of the examples *)

(** A subject of 81 code units whose 79th one is a space. *)
Definition subject_with_space : jsstring :=
  repeat 97%N 78 ++ js " bc".

(** A list of two days of commits as the prompt holds it. *)
Definition two_days : list Choice :=
  [Separator (Some (js "Mon Jan 15 2024"));
   Entry (Some (js "aaa")) (js "a1 Fix the build Alice")
     (js "a1fixthebuildbyalice") (js ">");
   Separator (Some (js "Mon Jan 15 2024"));
   Entry (Some (js "bbb")) (js "b1 Add a test Bob")
     (js "b1addatestbybob") (js ">");
   Separator None].

(** ** Auxiliary functions of the proofs *)

(** The second filter of [suggest] by recursion on the list: the element
    after the current one is the head of the rest. *)
Fixpoint drop_lone_separators (l : list Choice) : list Choice :=
  match l with
  | [] => []
  | choice :: r =>
      if (if negb (is_separator choice) then true
          else
            match hd_error r with
            | None => false
            | Some next => if is_separator next then false else true
            end)
      then choice :: drop_lone_separators r
      else drop_lone_separators r
  end.

(** The first filter of [suggest]. *)
Definition first_filter `{Runtime} (typed : jsstring) (choice : Choice) : bool :=
  match choice with
  | Separator _ => true
  | Entry _ _ query _ => includes query (toLowerCase typed)
  end.

(** The search key of an entry is the key [entryQuery] gives to a commit. *)
Definition keyed_by_commit `{Runtime} (choice : Choice) : Prop :=
  match choice with
  | Separator _ => True
  | Entry _ _ query _ => exists commit, query = entryQuery commit
  end.

(** A commit whose subject has the letter k, and the list made of it. *)
Definition kerning_commit : Commit :=
  {| branch := js "dev";
     timestamp := 1705320000000;
     hash := Some (js "a1b2c3d");
     fullHash := Some (js "a1b2c3d4e5f60718293a4b5c6d7e8f9012345678");
     author := Some (js "Alice");
     message := js "Fix kerning" |}.

(** The query of one code unit, KELVIN SIGN U+212A. *)
Definition kelvin_sign : jsstring := [8490%N].

(** The text of a cherry-pick command, [`git cherry-pick ${c.fullHash}`]. *)
Definition pickText (c : Commit) : jsstring :=
  js "git cherry-pick " ++ interpolate (fullHash c).

(** The order of the time stamps. *)
Definition not_after (a b : Commit) : Prop := timestamp a <= timestamp b.

(** Two commits a month apart, on the 15th of January and of February 2024
    at noon UTC, and a third one later on the 15th of February. *)
Definition january_commit : Commit :=
  {| branch := js "dev";
     timestamp := 1705320000000;
     hash := Some (js "aaa1111");
     fullHash := Some (js "aaa1111aaa1111aaa1111aaa1111aaa1111aaa11");
     author := Some (js "Alice");
     message := js "Add the parser" |}.

Definition february_commit : Commit :=
  {| branch := js "dev";
     timestamp := 1707998400000;
     hash := Some (js "bbb2222");
     fullHash := Some (js "bbb2222bbb2222bbb2222bbb2222bbb2222bbb22");
     author := Some (js "Bob");
     message := js "Use the parser" |}.

Definition february_evening_commit : Commit :=
  {| branch := js "dev";
     timestamp := 1708020000000;
     hash := Some (js "ccc3333");
     fullHash := Some (js "ccc3333ccc3333ccc3333ccc3333ccc3333ccc33");
     author := Some (js "Carol");
     message := js "Test the parser" |}.

(** The events of a query: the echo of the command, the command given to
    the shell, and the count of the lines it returned. *)
Definition is_query_event (w : World) (e : Event) : Prop :=
  match e with
  | console_log text => exists q, text = js "> " ++ q
  | console_log_returned _ => True
  | execSync cmd =>
      cmd = cherry_query (fromBranch w) (toBranch w) \/
      cmd = cherry_query (fromBranch w) (interpolate (includeBranch w)) \/
      cmd = log_query (fromBranch w) (toBranch w)
  | _ => False
  end.


(** A run that ends with [process.exit(0)] after it has printed [message],
    [before] being the events up to there; it has not offered to copy
    anything. *)
Definition clean_exit (run : M unit) (before : list Event) (message : jsstring)
  : Prop :=
  run = (before ++ [console_log message], ProcessExit 0) /\
  exit_status (completion run) = 0 /\
  offers_nothing (trace run).

(** A world to run the script in: two cherry-pickable commits, the user
    selects both, the newer one first, and accepts the copy. *)
Definition sample_cherry : jsstring :=
  js "+ aaa1111aaa1111aaa1111aaa1111aaa1111aaa11" ++ [line_feed] ++
  js "+ bbb2222bbb2222bbb2222bbb2222bbb2222bbb22" ++ [line_feed].

Definition sample_log : jsstring :=
  js "1707998400:;:bbb2222:;:bbb2222bbb2222bbb2222bbb2222bbb2222bbb22:;:Bob:;:Use the parser"
  ++ [line_feed] ++
  js "1705320000:;:aaa1111:;:aaa1111aaa1111aaa1111aaa1111aaa1111aaa11:;:Alice:;:Add the parser".

Definition sample_shell (cherry log : jsstring) (cmd : jsstring)
  : option jsstring :=
  if Js.eqb cmd (cherry_query (js "dev") (js "master")) then Some cherry
  else if Js.eqb cmd (log_query (js "dev") (js "master")) then Some log
  else None.

Definition sample_world : World :=
  {| env_CHERRY_QUICK_DEFAULT_FROM_BRANCH := None;
     env_CHERRY_QUICK_DEFAULT_INCLUDE_BRANCH := None;
     env_CHERRY_QUICK_DEFAULT_TO_BRANCH := None;
     values_from := None;
     values_to := None;
     values_include := None;
     values_branch := Some (js "HRIS-123-CP-PROD");
     values_help := false;
     shell := sample_shell sample_cherry sample_log;
     autocomplete := fun _ =>
       Some [js "bbb2222bbb2222bbb2222bbb2222bbb2222bbb22";
             js "aaa1111aaa1111aaa1111aaa1111aaa1111aaa11"];
     confirm := Some true;
     clipboard := fun _ => true |}.

(** The same world with other answers of git, another use of the first
    prompt, or the help flag. *)
Definition with_git (cherry log : jsstring) (w : World) : World :=
  {| env_CHERRY_QUICK_DEFAULT_FROM_BRANCH := env_CHERRY_QUICK_DEFAULT_FROM_BRANCH w;
     env_CHERRY_QUICK_DEFAULT_INCLUDE_BRANCH :=
       env_CHERRY_QUICK_DEFAULT_INCLUDE_BRANCH w;
     env_CHERRY_QUICK_DEFAULT_TO_BRANCH := env_CHERRY_QUICK_DEFAULT_TO_BRANCH w;
     values_from := values_from w;
     values_to := values_to w;
     values_include := values_include w;
     values_branch := values_branch w;
     values_help := values_help w;
     shell := sample_shell cherry log;
     autocomplete := autocomplete w;
     confirm := confirm w;
     clipboard := clipboard w |}.

Definition with_selection (answer : option (list jsstring)) (w : World) : World :=
  {| env_CHERRY_QUICK_DEFAULT_FROM_BRANCH := env_CHERRY_QUICK_DEFAULT_FROM_BRANCH w;
     env_CHERRY_QUICK_DEFAULT_INCLUDE_BRANCH :=
       env_CHERRY_QUICK_DEFAULT_INCLUDE_BRANCH w;
     env_CHERRY_QUICK_DEFAULT_TO_BRANCH := env_CHERRY_QUICK_DEFAULT_TO_BRANCH w;
     values_from := values_from w;
     values_to := values_to w;
     values_include := values_include w;
     values_branch := values_branch w;
     values_help := values_help w;
     shell := shell w;
     autocomplete := fun _ => answer;
     confirm := confirm w;
     clipboard := clipboard w |}.

Definition with_help (w : World) : World :=
  {| env_CHERRY_QUICK_DEFAULT_FROM_BRANCH := env_CHERRY_QUICK_DEFAULT_FROM_BRANCH w;
     env_CHERRY_QUICK_DEFAULT_INCLUDE_BRANCH :=
       env_CHERRY_QUICK_DEFAULT_INCLUDE_BRANCH w;
     env_CHERRY_QUICK_DEFAULT_TO_BRANCH := env_CHERRY_QUICK_DEFAULT_TO_BRANCH w;
     values_from := values_from w;
     values_to := values_to w;
     values_include := values_include w;
     values_branch := values_branch w;
     values_help := true;
     shell := shell w;
     autocomplete := autocomplete w;
     confirm := confirm w;
     clipboard := clipboard w |}.

(** The answer of [git cherry] when every commit is already there. *)
Definition merged_cherry : jsstring :=
  js "- aaa1111aaa1111aaa1111aaa1111aaa1111aaa11" ++ [line_feed] ++
  js "- bbb2222bbb2222bbb2222bbb2222bbb2222bbb22" ++ [line_feed].

(** A log that lacks the first of the two commits. *)
Definition short_log : jsstring :=
  js "1707998400:;:bbb2222:;:bbb2222bbb2222bbb2222bbb2222bbb2222bbb22:;:Bob:;:Use the parser".

(** ** The output of git as the script expects it *)

Definition colon : char := 58%N.

(** A line of the log: the five fields of the format, [":;:"] between
    them. *)
Definition logLine (seconds short full who subject : jsstring) : jsstring :=
  seconds ++ delimiter ++ short ++ delimiter ++ full ++ delimiter ++
  who ++ delimiter ++ subject.

(** A line of [git cherry]: a plus sign for a commit that can be
    cherry-picked, a minus sign for one that is already there, a space and
    the full hash. *)
Definition cherryLine (e : bool * jsstring) : jsstring :=
  (if fst e then js "+ " else js "- ") ++ snd e.

(** The output of [git cherry]: every line ends with a line feed. *)
Definition cherryOutput (entries : list (bool * jsstring)) : jsstring :=
  flat_map (fun e => cherryLine e ++ [line_feed]) entries.

(** ** The list of choices as a pure function *)

(** The label [entryMessage] returns for a commit, empty when it throws. *)
Definition labelOf `{Runtime} (includeBranch : option jsstring)
  (hashes : list jsstring) (commit : Commit) : jsstring :=
  match completion (entryMessage includeBranch hashes commit) with
  | Normal text => text
  | _ => []
  end.

(** The array the callback of [flatMap] returns for a commit. *)
Definition choiceRow `{Runtime} (includeBranch : option jsstring)
  (hashes : list jsstring) (commit : Commit) (i : Z) (commits : list Commit)
  : list (option Choice) :=
  [dateSeparator commit i commits;
   Some (Entry (fullHash commit) (labelOf includeBranch hashes commit)
           (entryQuery commit) (js ">"))].

(** The names of the entries of a list, in their order. *)
Definition entryNames (l : list Choice) : list (option jsstring) :=
  flat_map (fun choice =>
              match choice with
              | Entry name _ _ _ => [name]
              | Separator _ => []
              end) l.

(** The queries a run of the script gives to the shell, in their order. *)
Definition queries (w : World) : list jsstring :=
  [cherry_query (fromBranch w) (toBranch w)] ++
  (if truthy (includeBranch w)
   then [cherry_query (fromBranch w) (interpolate (includeBranch w))]
   else []) ++
  [log_query (fromBranch w) (toBranch w)].

(** The events that are not a write to the clipboard. *)
Definition is_clipboard_free (e : Event) : Prop :=
  match e with
  | clipboard_writeSync _ => False
  | _ => True
  end.

(** Every write to the clipboard of a trace comes, with the user's consent,
    right after the printing of the same text, the empty line and the
    confirmation prompt. *)
Definition written_after_confirmation (w : World) (t : list Event) : Prop :=
  forall text, In (clipboard_writeSync text) t ->
    confirm w = Some true /\
    exists before after,
      t = before ++
          [console_log text; console_log []; Confirm_run;
           clipboard_writeSync text] ++ after.

(** The entry of a commit in the list of choices. *)
Definition choiceEntry `{Runtime} (includeBranch : option jsstring)
  (hashes : list jsstring) (commit : Commit) : Choice :=
  Entry (fullHash commit) (labelOf includeBranch hashes commit)
    (entryQuery commit) (js ">").

(** How the script ends once the command is printed: by the answer to the
    confirmation and by the clipboard. *)
Definition ending (w : World) (text : jsstring) : Completion unit :=
  match confirm w with
  | None => Throw PromptRejected
  | Some false => Normal tt
  | Some true => if clipboard w text then Normal tt else Throw ClipboardError
  end.

(** ** Plain branch names *)





(** The commands a trace gives to the shell, in their order. *)
Definition shellCommands (t : list Event) : list jsstring :=
  flat_map (fun e =>
              match e with
              | execSync cmd => [cmd]
              | _ => []
              end) t.

(** A world where git answers the cherry comparison and fails on the log. *)
Definition log_fails_world : World :=
  {| env_CHERRY_QUICK_DEFAULT_FROM_BRANCH := None;
     env_CHERRY_QUICK_DEFAULT_INCLUDE_BRANCH := None;
     env_CHERRY_QUICK_DEFAULT_TO_BRANCH := None;
     values_from := None;
     values_to := None;
     values_include := None;
     values_branch := None;
     values_help := false;
     shell := fun cmd =>
       if Js.eqb cmd (cherry_query (js "dev") (js "master"))
       then Some sample_cherry
       else None;
     autocomplete := fun _ => None;
     confirm := None;
     clipboard := fun _ => true |}.

(** * Properties *)

(** ** Strings *)

Lemma char_eqb_eq (a b : char) : char_eqb a b = true <-> a = b.
Proof. unfold char_eqb. apply N.eqb_eq. Qed.

Lemma eqb_eq (a b : jsstring) : Js.eqb a b = true <-> a = b.
Proof.
  revert b. induction a as [|x a IH]; intros [|y b]; simpl; split;
    try congruence; try reflexivity.
  - intros E. apply andb_true_iff in E as [E1 E2].
    apply char_eqb_eq in E1. apply IH in E2. congruence.
  - intros E. injection E as -> ->. apply andb_true_iff. split.
    + now apply char_eqb_eq.
    + now apply IH.
Qed.

Lemma trimStart_solid (c : char) (s : jsstring) :
  is_whitespace c = false -> trimStart (c :: s) = c :: s.
Proof. intros Hc. simpl. now rewrite Hc. Qed.

Lemma trimEnd_solid (a : jsstring) (c : char) (x : jsstring) :
  is_whitespace c = false -> trimEnd (a ++ c :: x) = a ++ c :: trimEnd x.
Proof.
  intros Hc. induction a as [|y a IH].
  - simpl. rewrite Hc. now destruct (trimEnd x).
  - change (trimEnd ((y :: a) ++ c :: x))
      with (match trimEnd (a ++ c :: x) with
            | [] => if is_whitespace y then [] else [y]
            | r' => y :: r'
            end).
    rewrite IH. now destruct a.
Qed.

Lemma trimEnd_solid_last (a : jsstring) (c : char) :
  is_whitespace c = false -> trimEnd (a ++ [c]) = a ++ [c].
Proof. intros Hc. now rewrite trimEnd_solid. Qed.

Lemma firstn_snoc {A : Type} (n : nat) (l : list A) (d : A) :
  (n < List.length l)%nat -> firstn (S n) l = firstn n l ++ [nth n l d].
Proof.
  revert l. induction n as [|n IH]; intros [|x l] Hn; simpl in *; try lia.
  - reflexivity.
  - f_equal. apply IH. lia.
Qed.

Lemma slice_prefix (s : jsstring) (n : Z) :
  0 <= n <= Js.length s -> slice s 0 n = firstn (Z.to_nat n) s.
Proof.
  intros Hn. unfold slice, clamp_index.
  destruct (Z.ltb_spec 0 0); [lia|].
  destruct (Z.ltb_spec n 0); [lia|].
  rewrite (Z.min_l 0) by (unfold Js.length; lia).
  rewrite (Z.min_l n) by lia.
  now rewrite Z.sub_0_r.
Qed.

Lemma trim_solid_ends (s : jsstring) (d : char) :
  s <> [] ->
  is_whitespace (nth 0 s d) = false ->
  is_whitespace (last s d) = false ->
  trim s = s.
Proof.
  intros Hs Hfirst Hlast. unfold trim.
  destruct s as [|c m]; [contradiction|].
  rewrite trimStart_solid by exact Hfirst.
  rewrite (app_removelast_last d Hs) at 1.
  rewrite trimEnd_solid_last by exact Hlast.
  symmetry. now apply app_removelast_last.
Qed.

Lemma nth_0_firstn {A : Type} (n : nat) (l : list A) (d : A) :
  nth 0 (firstn (S n) l) d = nth 0 l d.
Proof. now destruct l. Qed.

(** ** [truncate] *)

Lemma truncate_within (text : jsstring) (n : Z) :
  Js.length text <= n -> truncate text n = text.
Proof.
  intros Hn. unfold truncate.
  destruct (Z.gtb_spec (Js.length text) n); [lia | reflexivity].
Qed.

Lemma truncate_beyond (text : jsstring) (n : Z) :
  1 <= n < Js.length text ->
  truncate text n = trim (firstn (Z.to_nat (n - 1)) text) ++ [ellipsis].
Proof.
  intros Hn. unfold truncate.
  destruct (Z.gtb_spec (Js.length text) n); [|lia].
  rewrite slice_prefix by lia. reflexivity.
Qed.

(** C5, as stated, fails: [truncate] trims what it keeps, so a subject of
    length 81 with a space in 79th place comes out as 78 code units and an
    ellipsis, not as its first 79 code units and an ellipsis. *)
Lemma truncate_81_trims_the_cut :
  Js.length subject_with_space = 81 /\
  truncate subject_with_space 80 = repeat 97%N 78 ++ [ellipsis] /\
  truncate subject_with_space 80 <> firstn 79 subject_with_space ++ [ellipsis].
Proof.
  split; [reflexivity|]. split; [reflexivity|].
  intros E. apply (f_equal (@List.length char)) in E.
  vm_compute in E. discriminate E.
Qed.

(** C5, amended: truncation to 80 leaves a subject of at most 80 code units
    as it is; it maps a subject of 81 code units to its first 79 code units,
    trimmed of white space at both ends, followed by an ellipsis; that is the
    first 79 code units and an ellipsis when the first and the 79th code unit
    are not white space. *)
Theorem truncate_80 (text : jsstring) :
  (Js.length text <= 80 -> truncate text 80 = text) /\
  (Js.length text = 81 ->
   truncate text 80 = trim (firstn 79 text) ++ [ellipsis]) /\
  (Js.length text = 81 ->
   is_whitespace (nth 0 text 0%N) = false ->
   is_whitespace (nth 78 text 0%N) = false ->
   truncate text 80 = firstn 79 text ++ [ellipsis]).
Proof.
  split; [apply truncate_within|].
  assert (Hcut : Js.length text = 81 ->
                 truncate text 80 = trim (firstn 79 text) ++ [ellipsis]).
  { intros Hlen. rewrite truncate_beyond by lia. reflexivity. }
  split; [exact Hcut|].
  intros Hlen Hfirst Hlast. rewrite (Hcut Hlen). f_equal.
  unfold Js.length in Hlen.
  apply trim_solid_ends with (d := 0%N).
  - destruct text; [simpl in Hlen; lia | discriminate].
  - now rewrite nth_0_firstn.
  - rewrite (firstn_snoc 78 text 0%N) by lia. now rewrite last_last.
Qed.

Lemma truncate_80_witness :
  truncate (js "Fix typo") 80 = js "Fix typo" /\
  truncate (repeat 97%N 81) 80 = repeat 97%N 79 ++ [ellipsis].
Proof.
  split.
  - apply (proj1 (truncate_80 (js "Fix typo"))). vm_compute. discriminate.
  - apply (proj2 (proj2 (truncate_80 (repeat 97%N 81)))); reflexivity.
Defined.

(** ** [generatePullRequestTitleFromBranch] *)

Lemma replaceAll_past_first (s : jsstring) (k j : Z) :
  k < j ->
  replaceAll_from s hyphen
    (fun index => if negb (index =? k) then [space] else [hyphen]) j
  = spaces_for_hyphens s.
Proof.
  revert j. induction s as [|c s IH]; intros j Hj; simpl; [reflexivity|].
  rewrite IH by lia.
  destruct (char_eqb c hyphen); [|reflexivity].
  destruct (Z.eqb_spec j k); [lia | reflexivity].
Qed.

Lemma title_from (s : jsstring) (i : Z) :
  replaceAll_from s hyphen
    (fun index =>
       if negb (index =? indexOf_from s hyphen i) then [space] else [hyphen]) i
  = title_by_words s.
Proof.
  revert i. induction s as [|c s IH]; intros i; simpl; [reflexivity|].
  destruct (char_eqb c hyphen).
  - rewrite Z.eqb_refl. simpl. f_equal. apply replaceAll_past_first. lia.
  - simpl. f_equal. apply IH.
Qed.

Lemma title_by_words_split (pre rest : jsstring) :
  ~ In hyphen pre ->
  title_by_words (pre ++ hyphen :: rest) = pre ++ hyphen :: spaces_for_hyphens rest.
Proof.
  induction pre as [|c pre IH]; intros Hpre; simpl.
  - reflexivity.
  - destruct (char_eqb c hyphen) eqn:E.
    + apply char_eqb_eq in E. subst c. exfalso. apply Hpre. now left.
    + f_equal. apply IH. intros Hin. apply Hpre. now right.
Qed.

Lemma title_by_words_plain (s : jsstring) :
  ~ In hyphen s -> title_by_words s = s.
Proof.
  induction s as [|c s IH]; intros Hs; simpl; [reflexivity|].
  destruct (char_eqb c hyphen) eqn:E.
  - apply char_eqb_eq in E. subst c. exfalso. apply Hs. now left.
  - f_equal. apply IH. intros Hin. apply Hs. now right.
Qed.

(** C6: the title of a pull request is the branch name with its first
    hyphen kept and every other hyphen replaced by a space: the name
    [pre-rest], where [pre] has no hyphen, becomes [pre-rest'] with the
    hyphens of [rest] turned into spaces; a name without a hyphen is
    returned as it is; ["HRIS-123-CP-PROD"] becomes ["HRIS-123 CP PROD"]. *)
Theorem title_keeps_first_hyphen (branch : jsstring) :
  generatePullRequestTitleFromBranch branch = title_by_words branch /\
  (forall pre rest, branch = pre ++ hyphen :: rest -> ~ In hyphen pre ->
     generatePullRequestTitleFromBranch branch
     = pre ++ hyphen :: spaces_for_hyphens rest) /\
  (~ In hyphen branch -> generatePullRequestTitleFromBranch branch = branch) /\
  generatePullRequestTitleFromBranch (js "HRIS-123-CP-PROD")
  = js "HRIS-123 CP PROD".
Proof.
  assert (E : forall b, generatePullRequestTitleFromBranch b = title_by_words b).
  { intros b. unfold generatePullRequestTitleFromBranch, replaceAll, indexOf.
    apply title_from. }
  split; [apply E|]. split; [|split].
  - intros pre rest -> Hpre. rewrite E. now apply title_by_words_split.
  - intros Hplain. rewrite E. now apply title_by_words_plain.
  - reflexivity.
Qed.

Lemma title_keeps_first_hyphen_witness :
  generatePullRequestTitleFromBranch (js "fix-a-b") = js "fix-a b" /\
  generatePullRequestTitleFromBranch (js "hotfix") = js "hotfix".
Proof.
  split.
  - apply (proj1 (proj2 (title_keeps_first_hyphen (js "fix-a-b")))
             (js "fix") (js "a-b")).
    + reflexivity.
    + simpl. intros [H|[H|[H|[]]]]; discriminate H.
  - apply (proj1 (proj2 (proj2 (title_keeps_first_hyphen (js "hotfix"))))).
    simpl. intros H. repeat (destruct H as [H|H]; [discriminate H|]). exact H.
Defined.

(** ** [suggest] *)

Lemma at_index_next {A : Type} (pre : list A) (x : A) (r : list A) :
  at_index (pre ++ x :: r) (Z.of_nat (List.length pre) + 1) = hd_error r.
Proof.
  unfold at_index.
  destruct (Z.ltb_spec (Z.of_nat (List.length pre) + 1) 0); [lia|].
  replace (Z.to_nat (Z.of_nat (List.length pre) + 1))
    with (List.length pre + 1)%nat by lia.
  rewrite nth_error_app2 by lia.
  replace (List.length pre + 1 - List.length pre)%nat with 1%nat by lia.
  now destruct r.
Qed.

Lemma second_filter_from (pre suf : list Choice) :
  filteri_from
    (fun choice i =>
       if negb (is_separator choice) then true
       else
         match at_index (pre ++ suf) (i + 1) with
         | None => false
         | Some next => if is_separator next then false else true
         end)
    (Z.of_nat (List.length pre)) suf
  = drop_lone_separators suf.
Proof.
  revert pre. induction suf as [|x r IH]; intros pre; simpl; [reflexivity|].
  rewrite at_index_next.
  specialize (IH (pre ++ [x])).
  rewrite <- app_assoc in IH. simpl in IH.
  rewrite length_app in IH. simpl in IH.
  replace (Z.of_nat (List.length pre + 1)) with (Z.of_nat (List.length pre) + 1)
    in IH by lia.
  now rewrite IH.
Qed.

Lemma second_filter (l : list Choice) :
  filteri
    (fun choice i choices =>
       if negb (is_separator choice) then true
       else
         match at_index choices (i + 1) with
         | None => false
         | Some next => if is_separator next then false else true
         end) l
  = drop_lone_separators l.
Proof. exact (second_filter_from [] l). Qed.

Section Suggest.

Context {RT : Runtime}.
Variable typed : jsstring.

Lemma head_of_kept (r : list Choice) :
  match hd_error (List.filter (first_filter typed) r) with
  | None => false
  | Some next => if is_separator next then false else true
  end = match_before_separator typed r.
Proof.
  induction r as [|[label|name text query indicator] r IH]; simpl;
    try reflexivity.
  destruct (includes query (toLowerCase typed)); simpl; [reflexivity|exact IH].
Qed.

Lemma suggest_unfolded (choices : list Choice) :
  suggest typed choices = drop_lone_separators (List.filter (first_filter typed) choices).
Proof. unfold suggest. now rewrite second_filter. Qed.

Lemma drop_after_filter (choices : list Choice) :
  drop_lone_separators (List.filter (first_filter typed) choices)
  = suggest_by_words typed choices.
Proof.
  induction choices as [|[label|name text query indicator] r IH].
  - reflexivity.
  - change (List.filter (first_filter typed) (Separator label :: r))
      with (Separator label :: List.filter (first_filter typed) r).
    cbn [drop_lone_separators suggest_by_words is_separator negb].
    rewrite head_of_kept, IH. reflexivity.
  - cbn [List.filter first_filter suggest_by_words is_separator matches].
    destruct (includes query (toLowerCase typed)).
    + cbn [drop_lone_separators is_separator negb]. now rewrite IH.
    + exact IH.
Qed.

Lemma suggest_by_words_head (r : list Choice) :
  match_before_separator typed r = true ->
  exists name text query indicator rest,
    suggest_by_words typed r = Entry name text query indicator :: rest.
Proof.
  induction r as [|[label|name text query indicator] r IH]; simpl;
    try discriminate.
  destruct (includes query (toLowerCase typed)); simpl.
  - intros _. now exists name, text, query, indicator, (suggest_by_words typed r).
  - exact IH.
Qed.

Lemma suggest_by_words_leads (choices : list Choice) :
  separators_lead (suggest_by_words typed choices) = true.
Proof.
  induction choices as [|[label|name text query indicator] r IH]; simpl.
  - reflexivity.
  - destruct (match_before_separator typed r) eqn:E; [|exact IH].
    destruct (suggest_by_words_head r E) as (n & t & q & i & rest & Er).
    rewrite Er in *. exact IH.
  - destruct (includes query (toLowerCase typed)); exact IH.
Qed.

Lemma suggest_by_words_keeps (choices : list Choice) (e : Choice) :
  In e choices -> matches typed e = true -> In e (suggest_by_words typed choices).
Proof.
  induction choices as [|c r IH]; intros Hin He; [contradiction|].
  destruct Hin as [->|Hin].
  - simpl. destruct e as [label|name text query indicator];
      [discriminate He|].
    simpl in *. rewrite He. now left.
  - simpl. destruct (if is_separator c then _ else _);
      [right|]; now apply IH.
Qed.

Lemma suggest_by_words_nothing (choices : list Choice) :
  (forall e, In e choices -> matches typed e = false) ->
  suggest_by_words typed choices = [].
Proof.
  induction choices as [|c r IH]; intros Hnone; [reflexivity|].
  assert (Hr : forall e, In e r -> matches typed e = false).
  { intros e He. apply Hnone. now right. }
  assert (Hsep : match_before_separator typed r = false).
  { clear IH Hnone. induction r as [|[l|n t q i] r IHr]; try reflexivity.
    simpl. rewrite IHr by (intros e He; apply Hr; now right).
    specialize (Hr (Entry n t q i) (or_introl eq_refl)). simpl in Hr.
    now rewrite Hr. }
  simpl. rewrite (IH Hr).
  destruct c as [l|n t q i]; simpl.
  - now rewrite Hsep.
  - specialize (Hnone (Entry n t q i) (or_introl eq_refl)). simpl in Hnone.
    now rewrite Hnone.
Qed.

Lemma suggest_as_words (choices : list Choice) :
  suggest typed choices = suggest_by_words typed choices.
Proof. rewrite suggest_unfolded. apply drop_after_filter. Qed.

End Suggest.

(** C9: in the list [suggest] returns for a typed query, every commit
    entry whose search key contains the lowercased query is kept and a
    separator is kept exactly when a matching entry follows it before the
    next separator; so every separator that is shown is directly followed by
    an entry: no two separators are adjacent and none ends the list. *)
Theorem suggest_keeps_matches_and_leading_separators `{Runtime}
  (typed : jsstring) (choices : list Choice) :
  suggest typed choices = suggest_by_words typed choices /\
  (forall e, In e choices -> matches typed e = true ->
     In e (suggest typed choices)) /\
  separators_lead (suggest typed choices) = true.
Proof.
  pose proof (suggest_as_words typed choices) as E.
  split; [exact E|]. rewrite E. split.
  - intros e. apply suggest_by_words_keeps.
  - apply suggest_by_words_leads.
Qed.

Lemma suggest_keeps_matches_and_leading_separators_witness :
  In (Entry (Some (js "aaa")) (js "a1 Fix the build Alice")
        (js "a1fixthebuildbyalice") (js ">"))
     (@suggest node_UTC (js "FIX") two_days).
Proof.
  apply (proj1 (proj2 (@suggest_keeps_matches_and_leading_separators
                         node_UTC (js "FIX") two_days))).
  - right. left. reflexivity.
  - reflexivity.
Defined.

(** ** The monad of runs *)

Lemma bind_normal {A B : Type} (m : M A) (k : A -> M B) (b : B) :
  completion (bind m k) = Normal b ->
  exists a, completion m = Normal a /\ completion (k a) = Normal b.
Proof.
  destruct m as [t [a|e|c]]; simpl; try discriminate.
  intros E. exists a. split; [reflexivity|].
  destruct (k a) as [t' r]. exact E.
Qed.

Lemma trace_bind {A B : Type} (m : M A) (k : A -> M B) :
  trace (bind m k)
  = trace m ++ match completion m with
               | Normal a => trace (k a)
               | _ => []
               end.
Proof.
  destruct m as [t [a|e|c]]; simpl; try now rewrite app_nil_r.
  now destruct (k a).
Qed.

Lemma completion_bind {A B : Type} (m : M A) (k : A -> M B) :
  completion (bind m k)
  = match completion m with
    | Normal a => completion (k a)
    | Throw e => Throw e
    | ProcessExit c => ProcessExit c
    end.
Proof.
  destruct m as [t [a|e|c]]; simpl; try reflexivity.
  now destruct (k a).
Qed.

(** ** Search keys *)

Lemma startsWith_prefix (s p : jsstring) :
  startsWith s p = true -> exists rest, s = p ++ rest.
Proof.
  revert s. induction p as [|x p IH]; intros s E.
  - now exists s.
  - destruct s as [|y s]; [discriminate E|]. simpl in E.
    apply andb_true_iff in E as [E1 E2].
    apply char_eqb_eq in E1. subst y.
    destruct (IH s E2) as [rest ->]. now exists rest.
Qed.

Lemma startsWith_app (p rest : jsstring) : startsWith (p ++ rest) p = true.
Proof.
  induction p as [|x p IH]; [reflexivity|].
  simpl. rewrite IH. unfold char_eqb. now rewrite N.eqb_refl.
Qed.

Lemma includes_In (s sub : jsstring) :
  includes s sub = true -> forall c, In c sub -> In c s.
Proof.
  induction s as [|y s IH]; intros E c Hc.
  - simpl in E. rewrite orb_false_r in E.
    destruct sub; [contradiction | discriminate E].
  - change (includes (y :: s) sub)
      with (startsWith (y :: s) sub || includes s sub) in E.
    apply orb_true_iff in E as [E|E].
    + destruct (startsWith_prefix _ _ E) as [rest ->].
      apply in_or_app. now left.
    + right. now apply IH.
Qed.

Lemma word_key_excludes (key sub : jsstring) :
  word_only key = true -> has_non_word sub = true -> includes key sub = false.
Proof.
  intros Hkey Hsub. destruct (includes key sub) eqn:E; [|reflexivity].
  unfold has_non_word in Hsub. apply existsb_exists in Hsub as (c & Hc & Hno).
  unfold word_only in Hkey. rewrite forallb_forall in Hkey.
  rewrite (Hkey c (includes_In _ _ E c Hc)) in Hno. discriminate Hno.
Qed.

Lemma stripNonWord_word_only (s : jsstring) : word_only (stripNonWord s) = true.
Proof.
  unfold word_only, stripNonWord. apply forallb_forall.
  intros c Hc. now apply filter_In in Hc.
Qed.

Section Keys.

Context {RT : Runtime}.

Lemma filter_Boolean_Forall {A : Type} (P : A -> Prop) (l : list (option A)) :
  Forall (fun o => match o with Some x => P x | None => True end) l ->
  Forall P (filter_Boolean l).
Proof.
  induction 1 as [|[x|] l Hx Hl IH]; simpl; auto.
Qed.

Lemma dateSeparator_keyed (commit : Commit) (i : Z) (all : list Commit) :
  match dateSeparator commit i all with
  | Some choice => keyed_by_commit choice
  | None => True
  end.
Proof.
  unfold dateSeparator.
  destruct (match match at_index all (i - 1) with
                  | Some prev => Some (new_Date (timestamp prev))
                  | None => None
                  end with
            | Some prev => _
            | None => true
            end); exact I.
Qed.

Lemma rows_keyed (includeBranch : option jsstring) (hashes : list jsstring)
  (all : list Commit) (cs : list Commit) (i : Z)
  (xs : list (list (option Choice))) :
  completion
    (sequence
       (mapi_from
          (fun commit i =>
             text <- entryMessage includeBranch hashes commit ;;
             ret [dateSeparator commit i all;
                  Some (Entry (fullHash commit) text (entryQuery commit)
                          (js ">"))])
          i cs)) = Normal xs ->
  Forall (Forall (fun o => match o with
                           | Some choice => keyed_by_commit choice
                           | None => True
                           end)) xs.
Proof.
  revert i xs. induction cs as [|c cs IH]; intros i xs E.
  - injection E as <-. constructor.
  - cbn [mapi_from sequence] in E.
    apply bind_normal in E as (row & Erow & E).
    apply bind_normal in E as (rows & Erows & E).
    injection E as <-.
    constructor; [|exact (IH _ _ Erows)].
    apply bind_normal in Erow as (text & _ & Erow).
    injection Erow as <-.
    constructor; [apply dateSeparator_keyed|].
    constructor; [|constructor].
    now exists c.
Qed.

Lemma choices_keyed (includeBranch : option jsstring) (hashes : list jsstring)
  (commits : list Commit) (list : list Choice) :
  completion (choices includeBranch hashes commits) = Normal list ->
  Forall keyed_by_commit list.
Proof.
  unfold choices, flatMapiM, mapi. intros E.
  apply bind_normal in E as (entries & Eentries & E).
  injection E as <-.
  apply bind_normal in Eentries as (rows & Erows & E).
  injection E as <-.
  apply filter_Boolean_Forall, Forall_app. split.
  - apply Forall_concat. exact (rows_keyed _ _ _ _ _ _ Erows).
  - constructor; [exact I | constructor].
Qed.

End Keys.

(** C10, as stated, fails: KELVIN SIGN is not a word character, and its
    lower case is the letter k, which the key of a commit may contain. *)
Lemma kelvin_sign_matches :
  has_non_word kelvin_sign = true /\
  exists list name text query indicator,
    completion (@choices node_UTC None [] [kerning_commit]) = Normal list /\
    @suggest node_UTC kelvin_sign list
    = [Separator (Some (js "Mon Jan 15 2024"));
       Entry name text query indicator].
Proof.
  split; [reflexivity|].
  now eexists _, _, _, _, _.
Qed.

(** C10, amended: when the lower case of the typed string has a code unit
    that is not a word character, no entry of the list matches and
    [suggest] returns the empty list.  The keys are made of word characters
    only, which [toLowerCase] keeps among themselves. *)
Theorem non_word_query_matches_nothing `{Runtime}
  (lower_word : forall s, word_only s = true -> word_only (toLowerCase s) = true)
  (typed : jsstring) (includeBranch : option jsstring)
  (hashes : list jsstring) (commits : list Commit) (list : list Choice) :
  has_non_word (toLowerCase typed) = true ->
  completion (choices includeBranch hashes commits) = Normal list ->
  (forall e, In e list -> matches typed e = false) /\
  suggest typed list = [].
Proof.
  intros Htyped Hlist.
  assert (Hnone : forall e, In e list -> matches typed e = false).
  { intros e He.
    pose proof (choices_keyed _ _ _ _ Hlist) as Hkeys.
    rewrite Forall_forall in Hkeys. specialize (Hkeys e He).
    destruct e as [label|name text query indicator]; [reflexivity|].
    destruct Hkeys as [commit ->]. simpl.
    apply word_key_excludes; [|exact Htyped].
    unfold entryQuery. apply lower_word, stripNonWord_word_only. }
  split; [exact Hnone|].
  rewrite suggest_as_words. now apply suggest_by_words_nothing.
Qed.

Lemma is_word_spec (c : char) :
  is_word c = true <->
  (65 <= c <= 90 \/ 97 <= c <= 122 \/ 48 <= c <= 57 \/ c = 95)%N.
Proof.
  unfold is_word.
  rewrite !orb_true_iff, !andb_true_iff, !N.leb_le, N.eqb_eq. lia.
Qed.

Lemma lower_unit_word (c : char) :
  is_word c = true -> forallb is_word (lower_unit c) = true.
Proof.
  intros Hc. pose proof (proj1 (is_word_spec c) Hc) as Hrange.
  unfold lower_unit.
  destruct ((65 <=? c) && (c <=? 90))%N eqn:E1.
  - simpl. rewrite andb_true_r. apply is_word_spec.
    apply andb_true_iff in E1. rewrite !N.leb_le in E1. lia.
  - destruct ((192 <=? c) && (c <=? 222) && negb (c =? 215))%N eqn:E2.
    { apply andb_true_iff in E2 as [E2 _].
      apply andb_true_iff in E2. rewrite !N.leb_le in E2. lia. }
    destruct (N.eqb_spec c 8486); [lia|].
    destruct (N.eqb_spec c 8490); [lia|].
    destruct (N.eqb_spec c 8491); [lia|].
    simpl. now rewrite Hc.
Qed.

Lemma node_UTC_lower_word (s : jsstring) :
  word_only s = true -> word_only (@toLowerCase node_UTC s) = true.
Proof.
  unfold word_only. simpl. induction s as [|c s IH]; [reflexivity|].
  simpl. intros E. apply andb_true_iff in E as [Ec Es].
  rewrite forallb_app, (IH Es), andb_true_r.
  now apply lower_unit_word.
Qed.

Lemma non_word_query_matches_nothing_witness :
  exists list,
    completion (@choices node_UTC None [] [kerning_commit]) = Normal list /\
    @suggest node_UTC (js "fix it") list = [].
Proof.
  eexists. split; [reflexivity|].
  apply (@non_word_query_matches_nothing node_UTC node_UTC_lower_word
           (js "fix it") None [] [kerning_commit]).
  - reflexivity.
  - reflexivity.
Defined.

(** ** The sort *)

Section Sort.

Context {A : Type}.
Variable cmp : A -> A -> Z.

Lemma insert_perm (x : A) (l : list A) : Permutation (insert cmp x l) (x :: l).
Proof.
  induction l as [|y l IH]; simpl; [reflexivity|].
  destruct (cmp x y >? 0); [|reflexivity].
  rewrite IH. apply perm_swap.
Qed.

Lemma sort_defined_perm (l : list A) : Permutation (sort_defined cmp l) l.
Proof.
  induction l as [|x l IH]; simpl; [reflexivity|].
  rewrite insert_perm. now constructor.
Qed.

End Sort.

Lemma insert_not_after (x : Commit) (l : list Commit) :
  Sorted not_after l -> Sorted not_after (insert byTimestamp x l).
Proof.
  induction 1 as [|y l Hl IH Hy]; simpl.
  - repeat constructor.
  - unfold byTimestamp at 1.
    destruct (Z.gtb_spec (timestamp x - timestamp y) 0) as [Hgt|Hle].
    + constructor; [exact IH|].
      destruct l as [|z l]; simpl.
      * constructor. unfold not_after. lia.
      * destruct (byTimestamp x z >? 0); constructor.
        -- now inversion Hy.
        -- unfold not_after. lia.
    + constructor; [now constructor|].
      constructor. unfold not_after. lia.
Qed.

Lemma sort_by_timestamp (l : list Commit) :
  Sorted not_after (sort_defined byTimestamp l).
Proof.
  induction l as [|x l IH]; simpl; [constructor|].
  now apply insert_not_after.
Qed.

Lemma filter_Boolean_defined {A : Type} (l : list A) :
  filter_Boolean (List.map Some l) = l.
Proof. induction l as [|x l IH]; simpl; congruence. Qed.

Lemma undefineds_defined {A : Type} (l : list A) :
  undefineds (List.map Some l) = [].
Proof. induction l as [|x l IH]; simpl; congruence. Qed.

Lemma findCommit_hash (commits : list Commit) (wanted : jsstring) (c : Commit) :
  findCommit commits wanted = Some c -> fullHash c = Some wanted /\ In c commits.
Proof.
  unfold findCommit. intros E. apply find_some in E as [Hin E]. split; [|exact Hin].
  destruct (fullHash c) as [h|]; [|discriminate E].
  simpl in E. apply eqb_eq in E. now subst.
Qed.

Lemma filter_Boolean_app {A : Type} (l m : list (option A)) :
  filter_Boolean (l ++ m) = filter_Boolean l ++ filter_Boolean m.
Proof.
  induction l as [|[x|] l IH]; simpl; [reflexivity | now rewrite IH | exact IH].
Qed.

Lemma filter_Boolean_undefineds {A : Type} (l : list (option A)) :
  filter_Boolean (undefineds l) = [].
Proof. induction l as [|[x|] l IH]; simpl; auto. Qed.

Lemma filter_Boolean_perm {A : Type} (l m : list (option A)) :
  Permutation l m -> Permutation (filter_Boolean l) (filter_Boolean m).
Proof.
  induction 1 as [|[x|] l m _ IH|[x|] [y|] l|l m n _ IH1 _ IH2]; simpl;
    try reflexivity; try (now constructor).
  - exact IH.
  - now transitivity (filter_Boolean m).
Qed.

(** The defined elements of a sorted array are the sort of the defined
    elements. *)
Lemma filter_Boolean_Array_sort {A : Type} (cmp : A -> A -> Z)
  (l : list (option A)) :
  filter_Boolean (Array_sort cmp l) = sort_defined cmp (filter_Boolean l).
Proof.
  unfold Array_sort.
  rewrite filter_Boolean_app, filter_Boolean_defined, filter_Boolean_undefineds.
  apply app_nil_r.
Qed.

Lemma sorted_timestamps (l : list Commit) :
  Sorted not_after l -> Sorted Z.le (List.map timestamp l).
Proof.
  induction 1 as [|x l Hl IH Hx]; simpl; constructor; [exact IH|].
  destruct Hx; simpl; now constructor.
Qed.

(** Two sorted lists of numbers with the same elements are equal. *)
Lemma sorted_unique (l m : list Z) :
  Sorted Z.le l -> Sorted Z.le m -> Permutation l m -> l = m.
Proof.
  intros Hl Hm.
  apply Sorted_StronglySorted in Hl; [|exact Z.le_trans].
  apply Sorted_StronglySorted in Hm; [|exact Z.le_trans].
  revert m Hm. induction Hl as [|x l Hl IH Hx]; intros m Hm Hperm.
  - now apply Permutation_nil in Hperm.
  - destruct Hm as [|y m Hm Hy].
    + apply Permutation_sym, Permutation_nil in Hperm. discriminate Hperm.
    + rewrite Forall_forall in Hx, Hy.
      assert (Hxy : x = y).
      { assert (Hx_in : In x (y :: m)).
        { apply (Permutation_in _ Hperm). now left. }
        assert (Hy_in : In y (x :: l)).
        { apply (Permutation_in _ (Permutation_sym Hperm)). now left. }
        destruct Hx_in as [E|Hx_in]; [now symmetry|].
        destruct Hy_in as [E|Hy_in]; [exact E|].
        specialize (Hx _ Hy_in). specialize (Hy _ Hx_in). lia. }
      subst y. f_equal. apply IH; [exact Hm|].
      exact (Permutation_cons_inv Hperm).
Qed.

(** The time stamps of the commands do not depend on the order of the
    selection. *)
Lemma selection_order_irrelevant (selected selected' : list jsstring)
  (candidates : list Commit) :
  Permutation selected selected' ->
  List.map timestamp (filter_Boolean (cherryPickCommits selected candidates))
  = List.map timestamp (filter_Boolean (cherryPickCommits selected' candidates)).
Proof.
  intros Hperm. unfold cherryPickCommits.
  rewrite !filter_Boolean_Array_sort.
  apply sorted_unique.
  - apply sorted_timestamps, sort_by_timestamp.
  - apply sorted_timestamps, sort_by_timestamp.
  - apply Permutation_map.
    rewrite !sort_defined_perm.
    apply filter_Boolean_perm, Permutation_map, Hperm.
Qed.

(** The records of the selected hashes, in the order of the selection. *)
Lemma found_records (commits : list Commit) (selected : list jsstring) :
  (forall h, In h selected -> exists c, findCommit commits h = Some c) ->
  exists found,
    List.map (findCommit commits) selected = List.map Some found /\
    List.map pickText found
    = List.map (fun h => js "git cherry-pick " ++ h) selected.
Proof.
  induction selected as [|h selected IH]; intros Hall.
  - now exists [].
  - destruct (Hall h (or_introl eq_refl)) as [c Hc].
    destruct IH as (found & E1 & E2).
    { intros h' Hh'. apply Hall. now right. }
    exists (c :: found). simpl. rewrite Hc, E1, E2.
    split; [reflexivity|]. f_equal.
    unfold pickText. now rewrite (proj1 (findCommit_hash _ _ _ Hc)).
Qed.

(** ** The command *)

Lemma mapM_cherryPickLine (cs : list Commit) :
  mapM cherryPickLine (List.map Some cs) = ret (List.map pickText cs).
Proof.
  induction cs as [|c cs IH]; [reflexivity|].
  cbn [List.map mapM]. rewrite IH. reflexivity.
Qed.


Lemma command_defined (cb : option jsstring) (tb : jsstring) (cs : list Commit) :
  command cb tb (List.map Some cs)
  = ret (trim
           (join
              ((if truthy cb then [switchLine (interpolate cb) tb] else []) ++
               List.map pickText cs ++
               (if truthy cb
                then [pushLine (interpolate cb); prLine (interpolate cb) tb]
                else []))
              chain)).
Proof. unfold command. now rewrite mapM_cherryPickLine. Qed.

Lemma join_head (p : jsstring) (l : list jsstring) (sep : jsstring) :
  exists rest, join (p :: l) sep = p ++ rest.
Proof.
  destruct l as [|q l].
  - exists []. simpl. now rewrite app_nil_r.
  - now exists (sep ++ join (q :: l) sep).
Qed.

Lemma join_last (l : list jsstring) (p : jsstring) (sep : jsstring) :
  exists before, join (l ++ [p]) sep = before ++ p.
Proof.
  induction l as [|q l [before IH]].
  - now exists [].
  - exists (q ++ sep ++ before).
    change ((q :: l) ++ [p]) with (q :: (l ++ [p])).
    destruct (l ++ [p]) as [|r m] eqn:E.
    + now destruct l.
    + change (join (q :: r :: m) sep) with (q ++ sep ++ join (r :: m) sep).
      rewrite IH. now rewrite !app_assoc.
Qed.

Lemma trim_solid (x m a : jsstring) (c d : char) :
  x = c :: m -> x = a ++ [d] ->
  is_whitespace c = false -> is_whitespace d = false ->
  trim x = x.
Proof.
  intros E1 E2 Hc Hd. unfold trim.
  rewrite E1, trimStart_solid by exact Hc.
  rewrite <- E1, E2. now apply trimEnd_solid_last.
Qed.

(** With a branch name the chain begins and ends with a solid code unit:
    trimming leaves it as it is. *)
Lemma chain_with_branch (b tb : jsstring) (lines : list jsstring) :
  trim (join ([switchLine b tb] ++ lines ++ [pushLine b; prLine b tb]) chain)
  = join (switchLine b tb :: lines ++ [pushLine b; prLine b tb]) chain.
Proof.
  change ([switchLine b tb] ++ lines ++ [pushLine b; prLine b tb])
    with (switchLine b tb :: lines ++ [pushLine b; prLine b tb]).
  destruct (join_head (switchLine b tb) (lines ++ [pushLine b; prLine b tb]) chain)
    as [rest Ehead].
  destruct (join_last (switchLine b tb :: lines ++ [pushLine b]) (prLine b tb) chain)
    as [before Elast].
  replace ((switchLine b tb :: lines ++ [pushLine b]) ++ [prLine b tb])
    with (switchLine b tb :: lines ++ [pushLine b; prLine b tb]) in Elast
    by (simpl; now rewrite <- app_assoc).
  eapply trim_solid with (c := 103%N) (d := 119%N).
  - rewrite Ehead. unfold switchLine. reflexivity.
  - rewrite Elast. unfold prLine.
    change (js " -w") with (js " -" ++ [119%N]).
    rewrite !app_assoc. reflexivity.
  - reflexivity.
  - reflexivity.
Qed.

(** Without one, the chain begins with the first cherry-pick command. *)
Lemma chain_without_branch (c : Commit) (cs : list Commit) :
  exists rest,
    trim (join (List.map pickText (c :: cs)) chain)
    = js "git cherry-pick" ++ trimEnd rest /\
    trim (join (List.map pickText (c :: cs)) chain)
    = trimEnd (join (List.map pickText (c :: cs)) chain).
Proof.
  destruct (join_head (pickText c) (List.map pickText cs) chain) as [rest E].
  exists ([space] ++ interpolate (fullHash c) ++ rest).
  change (List.map pickText (c :: cs)) with (pickText c :: List.map pickText cs).
  rewrite E. unfold trim, pickText.
  change (js "git cherry-pick ") with (js "git cherry-pic" ++ [107%N; space]).
  rewrite <- !app_assoc.
  change (js "git cherry-pic" ++ [107%N; space] ++ interpolate (fullHash c) ++ rest)
    with (103%N :: (js "it cherry-pic" ++ 107%N
                    :: ([space] ++ interpolate (fullHash c) ++ rest))).
  rewrite trimStart_solid by reflexivity.
  change (103%N :: (js "it cherry-pic" ++ 107%N
                    :: ([space] ++ interpolate (fullHash c) ++ rest)))
    with (js "git cherry-pic" ++ 107%N
          :: ([space] ++ interpolate (fullHash c) ++ rest)).
  rewrite trimEnd_solid by reflexivity.
  split; reflexivity.
Qed.

(** C1: when every selected hash names a candidate, the command has one
    [git cherry-pick <fullHash>] line for each selected hash, and the lines
    follow the time stamps of their commits in non-decreasing order, in
    whatever order the hashes were selected: another order of the same
    selection gives the same sequence of time stamps. *)
Theorem picks_follow_the_timestamps (selected : list jsstring)
  (candidates : list Commit) (cb : option jsstring) (tb : jsstring) :
  (forall h, In h selected -> exists c, findCommit candidates h = Some c) ->
  exists sorted,
    cherryPickCommits selected candidates = List.map Some sorted /\
    Sorted not_after sorted /\
    Permutation (List.map pickText sorted)
      (List.map (fun h => js "git cherry-pick " ++ h) selected) /\
    (forall selected', Permutation selected selected' ->
       List.map timestamp
         (filter_Boolean (cherryPickCommits selected' candidates))
       = List.map timestamp sorted) /\
    command cb tb (cherryPickCommits selected candidates)
    = ret (trim
             (join
                ((if truthy cb then [switchLine (interpolate cb) tb] else []) ++
                 List.map pickText sorted ++
                 (if truthy cb
                  then [pushLine (interpolate cb); prLine (interpolate cb) tb]
                  else []))
                chain)).
Proof.
  intros Hall. destruct (found_records candidates selected Hall)
    as (found & Efound & Elines).
  exists (sort_defined byTimestamp found).
  assert (E : cherryPickCommits selected candidates
              = List.map Some (sort_defined byTimestamp found)).
  { unfold cherryPickCommits, Array_sort.
    rewrite Efound, filter_Boolean_defined, undefineds_defined.
    apply app_nil_r. }
  split; [exact E|]. split; [apply sort_by_timestamp|]. split; [|split].
  - rewrite <- Elines. apply Permutation_map, sort_defined_perm.
  - intros selected' Hperm.
    rewrite <- (selection_order_irrelevant selected selected' candidates Hperm).
    now rewrite E, filter_Boolean_defined.
  - rewrite E. apply command_defined.
Qed.

Lemma picks_follow_the_timestamps_witness :
  exists sorted,
    cherryPickCommits
      [js "bbb2222bbb2222bbb2222bbb2222bbb2222bbb22";
       js "aaa1111aaa1111aaa1111aaa1111aaa1111aaa11"]
      [january_commit; february_commit] = List.map Some sorted /\
    Sorted not_after sorted.
Proof.
  destruct (picks_follow_the_timestamps
              [js "bbb2222bbb2222bbb2222bbb2222bbb2222bbb22";
               js "aaa1111aaa1111aaa1111aaa1111aaa1111aaa11"]
              [january_commit; february_commit] None (js "master"))
    as (sorted & E & Hsorted & _).
  - intros h [<-|[<-|[]]]; eexists; reflexivity.
  - exists sorted. split; [exact E | exact Hsorted].
Defined.

(** C8: the command is one chain of commands joined by [ && \] and a line
    feed.  With a branch name it is [git switch -c <branch> origin/<to>],
    the [git cherry-pick <fullHash>] commands, [git push -u origin <branch>]
    and [gh pr create -a @me -t "<title>" -B <to> -H <branch> -w], in this
    order; without one it is the cherry-pick commands alone.  The text
    begins with the switch command exactly when a branch name was given. *)
Theorem command_is_one_chain (cb : option jsstring) (tb : jsstring)
  (picked : list Commit) :
  picked <> [] ->
  exists text,
    command cb tb (List.map Some picked) = ret text /\
    (truthy cb = true ->
     text = join
              ((js "git switch -c " ++ interpolate cb ++ js " origin/" ++ tb)
               :: List.map
                    (fun c => js "git cherry-pick " ++ interpolate (fullHash c))
                    picked ++
               [js "git push -u origin " ++ interpolate cb;
                js "gh pr create -a @me -t " ++ [34%N] ++
                generatePullRequestTitleFromBranch (interpolate cb) ++ [34%N] ++
                js " -B " ++ tb ++ js " -H " ++ interpolate cb ++ js " -w"])
              (js " && " ++ [92%N; 10%N])) /\
    (truthy cb = false ->
     text = trimEnd
              (join
                 (List.map
                    (fun c => js "git cherry-pick " ++ interpolate (fullHash c))
                    picked)
                 (js " && " ++ [92%N; 10%N]))) /\
    startsWith text (js "git switch -c ") = truthy cb.
Proof.
  intros Hpicked.
  change (js " && " ++ [92%N; 10%N]) with chain.
  change (fun c => js "git cherry-pick " ++ interpolate (fullHash c))
    with pickText.
  change (js "git switch -c " ++ interpolate cb ++ js " origin/" ++ tb)
    with (switchLine (interpolate cb) tb).
  change (js "git push -u origin " ++ interpolate cb)
    with (pushLine (interpolate cb)).
  change (js "gh pr create -a @me -t " ++ [34%N] ++
          generatePullRequestTitleFromBranch (interpolate cb) ++ [34%N] ++
          js " -B " ++ tb ++ js " -H " ++ interpolate cb ++ js " -w")
    with (prLine (interpolate cb) tb).
  eexists. split; [apply command_defined|].
  destruct (truthy cb) eqn:Hcb.
  - rewrite chain_with_branch.
    split; [reflexivity|]. split; [discriminate|].
    destruct (join_head (switchLine (interpolate cb) tb)
                (List.map pickText picked ++
                 [pushLine (interpolate cb); prLine (interpolate cb) tb]) chain)
      as [rest ->].
    unfold switchLine. rewrite <- !app_assoc. apply startsWith_app.
  - destruct picked as [|c cs]; [contradiction|].
    rewrite app_nil_r. change ([] ++ List.map pickText (c :: cs))
      with (List.map pickText (c :: cs)).
    destruct (chain_without_branch c cs) as (rest & Ehead & Etrim).
    split; [discriminate|]. split; [intros _; exact Etrim|].
    rewrite Ehead. reflexivity.
Qed.

Lemma command_is_one_chain_witness :
  exists text,
    command (Some (js "HRIS-123-CP-PROD")) (js "master")
      [Some january_commit; Some february_commit] = ret text /\
    text = join
             [js "git switch -c HRIS-123-CP-PROD origin/master";
              js "git cherry-pick aaa1111aaa1111aaa1111aaa1111aaa1111aaa11";
              js "git cherry-pick bbb2222bbb2222bbb2222bbb2222bbb2222bbb22";
              js "git push -u origin HRIS-123-CP-PROD";
              js "gh pr create -a @me -t " ++ [34%N] ++ js "HRIS-123 CP PROD"
              ++ [34%N] ++ js " -B master -H HRIS-123-CP-PROD -w"]
             (js " && " ++ [92%N; 10%N]).
Proof.
  destruct (command_is_one_chain (Some (js "HRIS-123-CP-PROD")) (js "master")
              [january_commit; february_commit])
    as (text & E & Hwith & _).
  - discriminate.
  - exists text. split; [exact E|]. apply Hwith. reflexivity.
Defined.

(** ** The events of a run *)

Lemma events_bind {A B : Type} (P : Event -> Prop) (m : M A) (k : A -> M B) :
  Forall P (trace m) -> (forall a, Forall P (trace (k a))) ->
  Forall P (trace (bind m k)).
Proof.
  intros Hm Hk. rewrite trace_bind. apply Forall_app. split; [exact Hm|].
  destruct (completion m); [apply Hk | constructor | constructor].
Qed.

Lemma events_mapM {A B : Type} (P : Event -> Prop) (f : A -> M B) (l : list A) :
  (forall a, Forall P (trace (f a))) -> Forall P (trace (mapM f l)).
Proof.
  intros Hf. induction l as [|x l IH]; [constructor|].
  cbn [mapM]. apply events_bind; [apply Hf|]. intros y.
  apply events_bind; [exact IH|]. intros ys. constructor.
Qed.

Lemma events_sequence {A : Type} (P : Event -> Prop) (l : list (M A)) :
  Forall (fun m => Forall P (trace m)) l -> Forall P (trace (sequence l)).
Proof.
  induction 1 as [|m l Hm Hl IH]; [constructor|].
  cbn [sequence]. apply events_bind; [exact Hm|]. intros y.
  apply events_bind; [exact IH|]. intros ys. constructor.
Qed.

Lemma events_mapi_from {A B : Type} (P : Event -> Prop) (f : A -> Z -> M B)
  (i : Z) (l : list A) :
  (forall a j, Forall P (trace (f a j))) ->
  Forall (fun m => Forall P (trace m)) (mapi_from f i l).
Proof.
  intros Hf. revert i. induction l as [|x l IH]; intros i; constructor.
  - apply Hf.
  - apply IH.
Qed.

Section Events.

Context {RT : Runtime}.
Variable w : World.

Lemma executeShellCommand_run (cmd : jsstring) :
  executeShellCommand w cmd
  = match shell w cmd with
    | Some result =>
        ([console_log (js "> " ++ cmd); execSync cmd;
          console_log_returned
            (Z.of_nat (List.length (split result [line_feed])))],
         Normal result)
    | None =>
        ([console_log (js "> " ++ cmd); execSync cmd], Throw (ExecError cmd))
    end.
Proof. unfold executeShellCommand. now destruct (shell w cmd). Qed.

Lemma executeShellCommand_events (cmd : jsstring) :
  is_query_event w (execSync cmd) ->
  Forall (is_query_event w) (trace (executeShellCommand w cmd)).
Proof.
  intros Hcmd. rewrite executeShellCommand_run.
  destruct (shell w cmd); simpl.
  - apply Forall_cons; [now exists cmd|].
    apply Forall_cons; [exact Hcmd|].
    apply Forall_cons; [exact I | constructor].
  - apply Forall_cons; [now exists cmd|].
    apply Forall_cons; [exact Hcmd | constructor].
Qed.

Lemma entryMessage_events (ib : option jsstring) (hashes : list jsstring)
  (c : Commit) (P : Event -> Prop) :
  Forall P (trace (entryMessage ib hashes c)).
Proof. unfold entryMessage. destruct (author c); constructor. Qed.

Lemma choices_events (ib : option jsstring) (hashes : list jsstring)
  (cs : list Commit) (P : Event -> Prop) :
  Forall P (trace (choices ib hashes cs)).
Proof.
  unfold choices, flatMapiM, mapi.
  apply events_bind; [|constructor].
  apply events_bind; [|constructor].
  apply events_sequence, events_mapi_from. intros c j.
  apply events_bind; [apply entryMessage_events | constructor].
Qed.

Lemma command_events (cb : option jsstring) (tb : jsstring)
  (picked : list (option Commit)) (P : Event -> Prop) :
  Forall P (trace (command cb tb picked)).
Proof.
  unfold command. apply events_bind; [|constructor].
  apply events_mapM. intros [c|]; constructor.
Qed.

Lemma candidates_events (hashes : list jsstring) (commits : list Commit)
  (P : Event -> Prop) :
  Forall P (trace (fromBranchCherryPickableCommits hashes commits)).
Proof.
  unfold fromBranchCherryPickableCommits.
  apply events_bind; [|constructor].
  apply events_mapM. intros h.
  destruct (findCommit commits h); constructor.
Qed.

Lemma fetch_events : Forall (is_query_event w) (trace (fetch w)).
Proof.
  unfold fetch, getCherryPickableFullHashes, getLatestCommits.
  apply events_bind.
  { apply events_bind; [|constructor].
    apply executeShellCommand_events. now left. }
  intros fullHashes. apply events_bind.
  { destruct (truthy (includeBranch w)); [|constructor].
    apply events_bind; [|constructor].
    apply executeShellCommand_events. right. now left. }
  intros includeFullHashes. apply events_bind.
  { apply events_bind; [|constructor].
    apply executeShellCommand_events. right. now right. }
  intros commits. apply events_bind; [apply candidates_events | constructor].
Qed.




End Events.

(** ** What reaches the shell *)




(** ** The run of the script *)

Lemma no_events (t : list Event) : Forall (fun _ => False) t -> t = [].
Proof. destruct 1 as [|e t He _]; [reflexivity | destruct He]. Qed.

Lemma query_events_ask_nothing (w : World) (t : list Event) :
  Forall (is_query_event w) t -> asks_nothing t.
Proof.
  intros Hall e He. rewrite Forall_forall in Hall. specialize (Hall e He).
  now destruct e.
Qed.

Lemma asks_nothing_offers_nothing (t : list Event) :
  asks_nothing t -> offers_nothing t.
Proof. intros Hall e He. specialize (Hall e He). now destruct e. Qed.

Lemma offers_nothing_app (t u : list Event) :
  offers_nothing t -> offers_nothing u -> offers_nothing (t ++ u).
Proof.
  intros Ht Hu e He. apply in_app_or in He as [He|He]; [now apply Ht | now apply Hu].
Qed.

Lemma missing_record_mapM (commits : list Commit) (hashes : list jsstring) :
  (exists h, In h hashes /\ findCommit commits h = None) ->
  exists h, In h hashes /\ findCommit commits h = None /\
    completion
      (mapM
         (fun fullHash =>
            match findCommit commits fullHash with
            | None => throw (Error (js "Missing commit: " ++ fullHash))
            | Some commit => ret commit
            end)
         hashes)
    = Throw (Error (js "Missing commit: " ++ h)).
Proof.
  intros Hmissing. induction hashes as [|h hashes IH].
  - destruct Hmissing as (h & Hin & _). destruct Hin.
  - destruct (findCommit commits h) as [c|] eqn:Eh.
    + destruct IH as (h' & Hin & Hnone & E).
      { destruct Hmissing as (h' & [<-|Hin] & Hnone); [congruence|].
        now exists h'. }
      exists h'. split; [now right|]. split; [exact Hnone|].
      cbn [mapM]. rewrite Eh, completion_bind. cbn [ret completion snd].
      rewrite completion_bind, E. reflexivity.
    + exists h. split; [now left|]. split; [exact Eh|].
      cbn [mapM]. now rewrite Eh.
Qed.

Lemma missing_record (commits : list Commit) (hashes : list jsstring) :
  (exists h, In h hashes /\ findCommit commits h = None) ->
  exists h, In h hashes /\ findCommit commits h = None /\
    completion (fromBranchCherryPickableCommits hashes commits)
    = Throw (Error (js "Missing commit: " ++ h)).
Proof.
  intros Hmissing.
  destruct (missing_record_mapM commits hashes Hmissing) as (h & Hin & Hnone & E).
  exists h. split; [exact Hin|]. split; [exact Hnone|].
  unfold fromBranchCherryPickableCommits. now rewrite completion_bind, E.
Qed.

Section Script.

Context {RT : Runtime}.
Variable w : World.

Lemma getCherryPickableFullHashes_completion (a b : jsstring) :
  completion (getCherryPickableFullHashes w a b)
  = match shell w (cherry_query a b) with
    | Some out => Normal (plusLines out)
    | None => Throw (ExecError (cherry_query a b))
    end.
Proof.
  unfold getCherryPickableFullHashes.
  rewrite completion_bind, executeShellCommand_run.
  now destruct (shell w (cherry_query a b)).
Qed.

Lemma getLatestCommits_completion (a b : jsstring) :
  completion (getLatestCommits w a b)
  = match shell w (log_query a b) with
    | Some out => Normal (parseLog a out)
    | None => Throw (ExecError (log_query a b))
    end.
Proof.
  unfold getLatestCommits.
  rewrite completion_bind, executeShellCommand_run.
  now destruct (shell w (log_query a b)).
Qed.

(** When git answers the queries, [fetch] ends as the matching of the
    hashes with the records does. *)
Lemma fetch_completion (out log : jsstring) :
  shell w (cherry_query (fromBranch w) (toBranch w)) = Some out ->
  (truthy (includeBranch w) = true ->
   shell w (cherry_query (fromBranch w) (interpolate (includeBranch w)))
   <> None) ->
  shell w (log_query (fromBranch w) (toBranch w)) = Some log ->
  exists inc,
    completion (fetch w)
    = match completion
              (fromBranchCherryPickableCommits (plusLines out)
                 (parseLog (fromBranch w) log)) with
      | Normal candidates => Normal (inc, candidates)
      | Throw e => Throw e
      | ProcessExit c => ProcessExit c
      end.
Proof.
  intros Hout Hinc Hlog. unfold fetch.
  rewrite completion_bind, getCherryPickableFullHashes_completion, Hout.
  rewrite completion_bind.
  destruct (truthy (includeBranch w)) eqn:Etruthy.
  - rewrite getCherryPickableFullHashes_completion.
    destruct (shell w (cherry_query (fromBranch w)
                         (interpolate (includeBranch w)))) as [o|] eqn:Eo;
      [|now destruct (Hinc eq_refl)].
    exists (plusLines o).
    rewrite completion_bind, getLatestCommits_completion, Hlog.
    rewrite completion_bind.
    now destruct (completion (fromBranchCherryPickableCommits _ _)).
  - exists []. cbn [ret completion snd].
    rewrite completion_bind, getLatestCommits_completion, Hlog.
    rewrite completion_bind.
    now destruct (completion (fromBranchCherryPickableCommits _ _)).
Qed.

Lemma main_after_fetch :
  values_help w = false ->
  main w
  = bind (fetch w)
      (fun fetched =>
         let (inc, candidates) := fetched in
         if Z.of_nat (List.length candidates) =? 0
         then emit (console_log (js "No commits to pick from")) ;; process_exit 0
         else pick w inc candidates).
Proof. intros Hhelp. unfold main. now rewrite Hhelp. Qed.

Lemma main_fetch_throws (e : JsError) :
  values_help w = false ->
  completion (fetch w) = Throw e ->
  main w = (trace (fetch w), Throw e).
Proof.
  intros Hhelp E. rewrite (main_after_fetch Hhelp).
  destruct (fetch w) as [t c]. simpl in E. now subst c.
Qed.

Lemma choices_silent (ib : option jsstring) (hashes : list jsstring)
  (cs : list Commit) :
  trace (choices ib hashes cs) = [].
Proof. apply no_events, choices_events. Qed.

End Script.

(** C4: when git answers the queries and some cherry-pickable hash has no
    record in the log, the script throws [Missing commit: <hash>] for such a
    hash and ends with a status that is not zero; up to there it has only
    run the queries: no prompt was shown and no command printed. *)
Theorem missing_commit_is_fatal `{Runtime} (w : World) (out log : jsstring) :
  values_help w = false ->
  shell w (cherry_query (fromBranch w) (toBranch w)) = Some out ->
  (truthy (includeBranch w) = true ->
   shell w (cherry_query (fromBranch w) (interpolate (includeBranch w)))
   <> None) ->
  shell w (log_query (fromBranch w) (toBranch w)) = Some log ->
  (exists h, In h (plusLines out) /\
             findCommit (parseLog (fromBranch w) log) h = None) ->
  exists h,
    In h (plusLines out) /\
    findCommit (parseLog (fromBranch w) log) h = None /\
    completion (main w) = Throw (Error (js "Missing commit: " ++ h)) /\
    exit_status (completion (main w)) <> 0 /\
    Forall (is_query_event w) (trace (main w)) /\
    asks_nothing (trace (main w)).
Proof.
  intros Hhelp Hout Hinc Hlog Hmissing.
  destruct (missing_record _ _ Hmissing) as (h & Hin & Hnone & Ethrow).
  destruct (fetch_completion w out log Hout Hinc Hlog) as [inc Efetch].
  rewrite Ethrow in Efetch.
  rewrite (main_fetch_throws w _ Hhelp Efetch).
  exists h. split; [exact Hin|]. split; [exact Hnone|].
  split; [reflexivity|]. split; [discriminate|].
  split; [apply fetch_events|].
  apply (query_events_ask_nothing w), fetch_events.
Qed.

Lemma missing_commit_is_fatal_witness :
  exists h,
    completion (@main node_UTC (with_git sample_cherry short_log sample_world))
    = Throw (Error (js "Missing commit: " ++ h)).
Proof.
  destruct (@missing_commit_is_fatal node_UTC
              (with_git sample_cherry short_log sample_world)
              sample_cherry short_log)
    as (h & _ & _ & E & _).
  - reflexivity.
  - reflexivity.
  - discriminate.
  - reflexivity.
  - exists (js "aaa1111aaa1111aaa1111aaa1111aaa1111aaa11").
    split; [left; reflexivity | reflexivity].
  - exists h. exact E.
Defined.

Lemma clean_exit_intro (run : M unit) (before : list Event) (message : jsstring) :
  run = (before ++ [console_log message], ProcessExit 0) ->
  offers_nothing before ->
  clean_exit run before message.
Proof.
  intros -> Hbefore. split; [reflexivity|]. split; [reflexivity|].
  apply offers_nothing_app; [exact Hbefore|].
  intros e [<-|[]]. exact I.
Qed.

Lemma fetch_offers_nothing `{Runtime} (w : World) : offers_nothing (trace (fetch w)).
Proof.
  apply asks_nothing_offers_nothing, (query_events_ask_nothing w), fetch_events.
Qed.

Lemma pick_after_choices `{Runtime} (w : World) (inc : list jsstring)
  (cands : list Commit) (list : list Choice) :
  completion (choices (includeBranch w) inc cands) = Normal list ->
  pick w inc cands
  = (emit (AutoComplete_run list) ;;
     match autocomplete w list with
     | None =>
         emit (console_log (js "Operation aborted by user")) ;; process_exit 0
     | Some selected =>
         let picked := cherryPickCommits selected cands in
         if Z.of_nat (List.length picked) =? 0
         then emit (console_log (js "No commits were picked")) ;; process_exit 0
         else
           text <- command (cherryPickBranch w) (toBranch w) picked ;;
           offerClipboard w text
     end).
Proof.
  intros E. unfold pick.
  pose proof (choices_silent (includeBranch w) inc cands) as Hsilent.
  destruct (choices (includeBranch w) inc cands) as [t c].
  simpl in E, Hsilent. subst t c. unfold bind at 1.
  now destruct (emit (AutoComplete_run list) ;; _).
Qed.

(** C7: each of the four early exits prints its message and ends with
    status 0; nothing was offered to the clipboard before, and what was
    printed before is the echo of the queries: with the help flag, when no
    commit can be cherry-picked, when the user aborts the selection, and
    when no commit is selected. *)
Theorem early_exits_are_clean `{Runtime} (w : World) :
  (values_help w = true -> clean_exit (main w) [] (helpText w)) /\
  (values_help w = false ->
   forall inc, completion (fetch w) = Normal (inc, []) ->
     clean_exit (main w) (trace (fetch w)) (js "No commits to pick from")) /\
  (values_help w = false ->
   forall inc cands list,
     completion (fetch w) = Normal (inc, cands) -> cands <> [] ->
     completion (choices (includeBranch w) inc cands) = Normal list ->
     autocomplete w list = None ->
     clean_exit (main w) (trace (fetch w) ++ [AutoComplete_run list])
       (js "Operation aborted by user")) /\
  (values_help w = false ->
   forall inc cands list selected,
     completion (fetch w) = Normal (inc, cands) -> cands <> [] ->
     completion (choices (includeBranch w) inc cands) = Normal list ->
     autocomplete w list = Some selected ->
     cherryPickCommits selected cands = [] ->
     clean_exit (main w) (trace (fetch w) ++ [AutoComplete_run list])
       (js "No commits were picked")).
Proof.
  assert (Hprompt : forall list,
            offers_nothing (trace (fetch w) ++ [AutoComplete_run list])).
  { intros list. apply offers_nothing_app; [apply fetch_offers_nothing|].
    intros e [<-|[]]. exact I. }
  split; [|split; [|split]].
  - intros Hhelp. apply clean_exit_intro.
    + unfold main. now rewrite Hhelp.
    + intros e [].
  - intros Hhelp inc Efetch. apply clean_exit_intro.
    + rewrite (main_after_fetch w Hhelp).
      destruct (fetch w) as [t c]. simpl in Efetch. now subst c.
    + apply fetch_offers_nothing.
  - intros Hhelp inc cands list Efetch Hcands Elist Hauto.
    apply clean_exit_intro; [|apply Hprompt].
    rewrite (main_after_fetch w Hhelp).
    pose proof (pick_after_choices w inc cands list Elist) as Epick.
    rewrite Hauto in Epick.
    destruct (fetch w) as [t c]. simpl in Efetch. subst c.
    destruct cands as [|c cands]; [contradiction|].
    unfold bind at 1.
    change (Z.of_nat (List.length (c :: cands)) =? 0) with false.
    cbv iota. rewrite Epick. simpl. now rewrite <- app_assoc.
  - intros Hhelp inc cands list selected Efetch Hcands Elist Hauto Hnone.
    apply clean_exit_intro; [|apply Hprompt].
    rewrite (main_after_fetch w Hhelp).
    pose proof (pick_after_choices w inc cands list Elist) as Epick.
    rewrite Hauto in Epick. cbv zeta in Epick. rewrite Hnone in Epick.
    destruct (fetch w) as [t c]. simpl in Efetch. subst c.
    destruct cands as [|c cands]; [contradiction|].
    unfold bind at 1.
    change (Z.of_nat (List.length (c :: cands)) =? 0) with false.
    cbv iota. rewrite Epick. simpl. now rewrite <- app_assoc.
Qed.

Lemma early_exits_are_clean_witness :
  clean_exit (@main node_UTC (with_help sample_world)) []
    (helpText (with_help sample_world)) /\
  clean_exit (@main node_UTC (with_git merged_cherry sample_log sample_world))
    (trace (@fetch node_UTC (with_git merged_cherry sample_log sample_world)))
    (js "No commits to pick from") /\
  (exists before,
     clean_exit (@main node_UTC (with_selection None sample_world)) before
       (js "Operation aborted by user")) /\
  (exists before,
     clean_exit (@main node_UTC (with_selection (Some []) sample_world)) before
       (js "No commits were picked")).
Proof.
  split; [|split; [|split]].
  - apply (proj1 (@early_exits_are_clean node_UTC (with_help sample_world))).
    reflexivity.
  - apply (proj1 (proj2 (@early_exits_are_clean node_UTC
                           (with_git merged_cherry sample_log sample_world)))
             eq_refl []).
    reflexivity.
  - eexists.
    apply (proj1 (proj2 (proj2 (@early_exits_are_clean node_UTC
                                  (with_selection None sample_world))))
             eq_refl [] [february_commit; january_commit]).
    + reflexivity.
    + discriminate.
    + reflexivity.
    + reflexivity.
  - eexists.
    eapply (proj2 (proj2 (proj2 (@early_exits_are_clean node_UTC
                                   (with_selection (Some []) sample_world))))
              eq_refl [] [february_commit; january_commit]).
    + reflexivity.
    + discriminate.
    + reflexivity.
    + reflexivity.
    + reflexivity.
Defined.

(** ** Date separators *)

Lemma civil_of_days_examples :
  civil_of_days 0 = (1970, 0, 1) /\
  civil_of_days (-1) = (1969, 11, 31) /\
  civil_of_days 11016 = (2000, 1, 29) /\
  civil_of_days 19737 = (2024, 0, 15) /\
  civil_of_days 19768 = (2024, 1, 15).
Proof. repeat split; reflexivity. Qed.

Section Separators.

Context {RT : Runtime}.

(** Before the first commit there is a separator with its date. *)
Lemma dateSeparator_first (commit : Commit) (commits : list Commit) :
  dateSeparator commit 0 commits
  = Some (Separator (Some (formatDate (new_Date (timestamp commit))))).
Proof. reflexivity. Qed.

(** Before another commit there is one exactly when the day of the month
    differs from the one of the commit before; its label is the date of the
    commit before. *)
Lemma dateSeparator_next (commit prev : Commit) (i : Z) (commits : list Commit) :
  at_index commits (i - 1) = Some prev ->
  dateSeparator commit i commits
  = if number_neq (getDate (new_Date (timestamp commit)))
         (getDate (new_Date (timestamp prev)))
    then Some (Separator (Some (formatDate (new_Date (timestamp prev)))))
    else None.
Proof. intros E. unfold dateSeparator. now rewrite E. Qed.

(** Two commits of the same calendar day have no separator between them. *)
Lemma same_day_no_separator (commit prev : Commit) (i : Z) (commits : list Commit) :
  at_index commits (i - 1) = Some prev ->
  Z.abs (timestamp commit) <= maxTime ->
  calendarDate (new_Date (timestamp commit))
  = calendarDate (new_Date (timestamp prev)) ->
  dateSeparator commit i commits = None.
Proof.
  intros E Hvalid Hsame. rewrite (dateSeparator_next _ _ _ _ E).
  unfold calendarDate in Hsame. injection Hsame as _ _ Hday.
  rewrite <- Hday. unfold new_Date.
  destruct (Z.leb_spec (Z.abs (timestamp commit)) maxTime); [|lia].
  simpl. now rewrite Z.eqb_refl.
Qed.

End Separators.

(** C2, on two commits that are a month apart, the 15th of January and the
    15th of February 2024: their calendar dates differ and the list has no
    separator between them, since the script compares the days of the month
    only. *)
Theorem no_separator_a_month_apart :
  completion (@choices node_UTC None [] [january_commit; february_commit])
  = Normal
      [Separator (Some (js "Mon Jan 15 2024"));
       Entry (fullHash january_commit) (js "aaa1111 Add the parser Alice")
         (js "aaa1111addtheparserbyalice") (js ">");
       Entry (fullHash february_commit) (js "bbb2222 Use the parser Bob")
         (js "bbb2222usetheparserbybob") (js ">");
       Separator None] /\
  @calendarDate node_UTC (new_Date (timestamp january_commit))
  = (Some 2024, Some 0, Some 15) /\
  @calendarDate node_UTC (new_Date (timestamp february_commit))
  = (Some 2024, Some 1, Some 15).
Proof. repeat split; reflexivity. Qed.

(** * Further properties *)

(** ** Splitting and joining *)

Lemma split_aux_skip (sep t s acc : jsstring) :
  split_aux sep (List.length t) (t ++ s) acc = split_aux sep O s acc.
Proof. induction t as [|x t IH]; [reflexivity | exact IH]. Qed.

Lemma split_aux_match (x : char) (sep' s acc : jsstring) :
  split_aux (x :: sep') O ((x :: sep') ++ s) acc
  = rev acc :: split_aux (x :: sep') O s [].
Proof.
  change ((x :: sep') ++ s) with (x :: (sep' ++ s)).
  cbn [split_aux].
  change (x :: (sep' ++ s)) with ((x :: sep') ++ s).
  rewrite startsWith_app. cbn [List.length Nat.pred].
  now rewrite split_aux_skip.
Qed.

Lemma split_aux_pass (sep : jsstring) (c : char) (r acc : jsstring) :
  startsWith (c :: r) sep = false ->
  split_aux sep O (c :: r) acc = split_aux sep O r (c :: acc).
Proof. intros E. cbn [split_aux]. now rewrite E. Qed.

Lemma startsWith_other (x c : char) (sep' r : jsstring) :
  c <> x -> startsWith (c :: r) (x :: sep') = false.
Proof.
  intros Hc. simpl. destruct (char_eqb x c) eqn:E; [|reflexivity].
  apply char_eqb_eq in E. congruence.
Qed.

(** A piece without the first code unit of the separator ends at the
    separator that follows it. *)
Lemma split_aux_field (x : char) (sep' a rest acc : jsstring) :
  ~ In x a ->
  split_aux (x :: sep') O (a ++ (x :: sep') ++ rest) acc
  = (rev acc ++ a) :: split_aux (x :: sep') O rest [].
Proof.
  revert acc. induction a as [|c a IH]; intros acc Ha.
  - rewrite app_nil_r. apply split_aux_match.
  - change ((c :: a) ++ (x :: sep') ++ rest)
      with (c :: (a ++ (x :: sep') ++ rest)).
    rewrite split_aux_pass.
    + rewrite IH by (intros Hin; apply Ha; now right).
      simpl. now rewrite <- app_assoc.
    + apply startsWith_other. intros ->. apply Ha. now left.
Qed.

Lemma split_aux_whole (x : char) (sep' a acc : jsstring) :
  ~ In x a -> split_aux (x :: sep') O a acc = [rev acc ++ a].
Proof.
  revert acc. induction a as [|c a IH]; intros acc Ha.
  - simpl. now rewrite app_nil_r.
  - rewrite split_aux_pass.
    + rewrite IH by (intros Hin; apply Ha; now right).
      simpl. now rewrite <- app_assoc.
    + apply startsWith_other. intros ->. apply Ha. now left.
Qed.

Lemma split_aux_not_nil (sep : jsstring) (skip : nat) (s acc : jsstring) :
  split_aux sep skip s acc <> [].
Proof.
  revert skip acc. induction s as [|c r IH]; intros skip acc; simpl.
  - discriminate.
  - destruct skip as [|k]; [|apply IH].
    destruct (startsWith (c :: r) sep); [discriminate | apply IH].
Qed.

Lemma join_cons (p : jsstring) (l : list jsstring) (sep : jsstring) :
  l <> [] -> join (p :: l) sep = p ++ sep ++ join l sep.
Proof. destruct l; [contradiction | reflexivity]. Qed.

(** Joining the pieces of a string with the separator gives the string
    back. *)
Lemma join_split_aux (x : char) (sep' : jsstring) (n : nat) :
  forall s acc, (List.length s <= n)%nat ->
    join (split_aux (x :: sep') O s acc) (x :: sep') = rev acc ++ s.
Proof.
  induction n as [|n IH]; intros s acc Hn.
  - destruct s; [|simpl in Hn; lia]. simpl. now rewrite app_nil_r.
  - destruct s as [|c r]; [simpl; now rewrite app_nil_r|].
    destruct (startsWith (c :: r) (x :: sep')) eqn:E.
    + destruct (startsWith_prefix _ _ E) as [rest Erest].
      rewrite Erest, split_aux_match.
      rewrite join_cons by apply split_aux_not_nil.
      rewrite IH.
      * reflexivity.
      * apply (f_equal (@List.length char)) in Erest.
        rewrite length_app in Erest. simpl in Erest, Hn. lia.
    + rewrite split_aux_pass by exact E.
      rewrite IH by (simpl in Hn; lia).
      simpl. now rewrite <- app_assoc.
Qed.

Lemma join_split (s sep : jsstring) :
  sep <> [] -> join (split s sep) sep = s.
Proof.
  destruct sep as [|x sep']; [contradiction|]. intros _.
  exact (join_split_aux x sep' (List.length s) s [] (le_n _)).
Qed.

Lemma split_join (x : char) (sep' : jsstring) (parts : list jsstring) :
  parts <> [] -> Forall (fun p => ~ In x p) parts ->
  split (join parts (x :: sep')) (x :: sep') = parts.
Proof.
  unfold split. intros Hparts Hall.
  induction Hall as [|p parts Hp Hall IH]; [contradiction|].
  destruct parts as [|q parts].
  - simpl join. now rewrite split_aux_whole.
  - rewrite join_cons by discriminate.
    rewrite split_aux_field by exact Hp.
    simpl rev. simpl app at 1. f_equal. apply IH. discriminate.
Qed.

(** ** The log *)

Lemma split_logLine (seconds short full who subject : jsstring) :
  ~ In colon seconds -> ~ In colon short -> ~ In colon full ->
  ~ In colon who ->
  split (logLine seconds short full who subject) delimiter
  = seconds :: short :: full :: who :: split subject delimiter.
Proof.
  intros Hseconds Hshort Hfull Hwho. unfold split, logLine.
  change delimiter with (colon :: js ";:").
  rewrite (split_aux_field colon (js ";:") seconds) by exact Hseconds.
  rewrite (split_aux_field colon (js ";:") short) by exact Hshort.
  rewrite (split_aux_field colon (js ";:") full) by exact Hfull.
  rewrite (split_aux_field colon (js ";:") who) by exact Hwho.
  reflexivity.
Qed.

(** X1: a line of the log whose time stamp, hashes and author have no
    colon is read back field by field, and the subject is read back whole,
    also when it contains the delimiter. *)
Theorem log_line_round_trip `{Runtime} (fromBranch seconds short full who subject : jsstring) :
  ~ In colon seconds -> ~ In colon short -> ~ In colon full ->
  ~ In colon who ->
  parseLogLine fromBranch (logLine seconds short full who subject)
  = {| branch := fromBranch;
       timestamp := Number seconds * 1000;
       hash := Some short;
       fullHash := Some full;
       author := Some who;
       message := subject |}.
Proof.
  intros Hseconds Hshort Hfull Hwho. unfold parseLogLine.
  rewrite (split_logLine seconds short full who subject
             Hseconds Hshort Hfull Hwho).
  cbn [hd nth_error skipn].
  now rewrite join_split by discriminate.
Qed.

Lemma log_line_round_trip_witness :
  @parseLogLine node_UTC (js "dev")
    (logLine (js "1705320000") (js "aaa1111") (js "aaa1111aaa1111")
       (js "Alice") (js "Fix :;: in the parser"))
  = {| branch := js "dev";
       timestamp := 1705320000000;
       hash := Some (js "aaa1111");
       fullHash := Some (js "aaa1111aaa1111");
       author := Some (js "Alice");
       message := js "Fix :;: in the parser" |}.
Proof.
  apply (@log_line_round_trip node_UTC (js "dev") (js "1705320000")
           (js "aaa1111") (js "aaa1111aaa1111") (js "Alice")
           (js "Fix :;: in the parser"));
    vm_compute; intuition discriminate.
Defined.

(** X2: a log of lines without a line feed inside gives one record for
    each line, in the order of the lines; the empty output of a log without
    commits still gives one record, which has no hash, so that no hash finds
    a record in it. *)
Theorem log_gives_a_record_per_line `{Runtime} (fromBranch : jsstring)
  (lines : list jsstring) :
  (lines <> [] -> Forall (fun line => ~ In line_feed line) lines ->
   parseLog fromBranch (join lines [line_feed])
   = List.map (parseLogLine fromBranch) lines) /\
  (exists record,
     parseLog fromBranch [] = [record] /\
     hash record = None /\ fullHash record = None /\ author record = None /\
     forall wanted, findCommit (parseLog fromBranch []) wanted = None).
Proof.
  split.
  - intros Hlines Hall. unfold parseLog.
    now rewrite (split_join line_feed [] lines Hlines Hall).
  - eexists. split; [reflexivity|]. repeat split.
Qed.

Lemma log_gives_a_record_per_line_witness :
  List.length (@parseLog node_UTC (js "dev") sample_log) = 2%nat.
Proof.
  change sample_log
    with (join
            [js "1707998400:;:bbb2222:;:bbb2222bbb2222bbb2222bbb2222bbb2222bbb22:;:Bob:;:Use the parser";
             js "1705320000:;:aaa1111:;:aaa1111aaa1111aaa1111aaa1111aaa1111aaa11:;:Alice:;:Add the parser"]
            [line_feed]).
  rewrite (proj1 (@log_gives_a_record_per_line node_UTC (js "dev") _)).
  - reflexivity.
  - discriminate.
  - repeat constructor; vm_compute; intuition discriminate.
Defined.

(** ** The cherry comparison *)

Lemma slice_from_2 (a b : char) (s : jsstring) : slice_from (a :: b :: s) 2 = s.
Proof.
  unfold slice_from, slice, clamp_index, Js.length.
  cbn [List.length].
  destruct (Z.ltb_spec 2 0); [lia|].
  destruct (Z.ltb_spec (Z.of_nat (S (S (List.length s)))) 0); [lia|].
  rewrite !Z.min_l by lia.
  replace (Z.to_nat (Z.of_nat (S (S (List.length s))) - 2)) with (List.length s)
    by lia.
  change (Z.to_nat 2) with 2%nat. cbn [skipn].
  apply firstn_all.
Qed.

Lemma cherryLine_one_line (e : bool * jsstring) :
  ~ In line_feed (snd e) -> ~ In line_feed (cherryLine e).
Proof.
  intros He Hin. unfold cherryLine in Hin.
  apply in_app_or in Hin as [Hin|Hin]; [|now apply He].
  destruct (fst e); simpl in Hin;
    repeat (destruct Hin as [Hin|Hin]; [discriminate Hin|]); exact Hin.
Qed.

Lemma split_cherryOutput (entries : list (bool * jsstring)) :
  Forall (fun e => ~ In line_feed (snd e)) entries ->
  split (cherryOutput entries) [line_feed] = List.map cherryLine entries ++ [[]].
Proof.
  unfold split. induction 1 as [|e entries He Hall IH]; [reflexivity|].
  cbn [cherryOutput flat_map List.map app].
  rewrite <- app_assoc.
  rewrite (split_aux_field line_feed [] (cherryLine e))
    by now apply cherryLine_one_line.
  simpl rev. simpl app at 1. f_equal. exact IH.
Qed.

(** X3: of an output of [git cherry] made of lines [+ hash] and [- hash],
    [getCherryPickableFullHashes] keeps the hashes of the plus lines, whole
    and in their order, and nothing of the minus lines nor of the empty
    piece after the last line feed. *)
Theorem plus_lines_are_the_cherry_pickable (entries : list (bool * jsstring)) :
  Forall (fun e => ~ In line_feed (snd e)) entries ->
  plusLines (cherryOutput entries) = List.map snd (List.filter fst entries).
Proof.
  intros Hall. unfold plusLines. rewrite (split_cherryOutput entries Hall).
  clear Hall. induction entries as [|[[|] h] entries IH].
  - reflexivity.
  - cbn [List.map app List.filter fst snd].
    change (startsWith (cherryLine (true, h)) (js "+")) with true.
    cbn [List.map]. f_equal; [|exact IH].
    apply slice_from_2.
  - cbn [List.map app List.filter fst snd].
    change (startsWith (cherryLine (false, h)) (js "+")) with false.
    exact IH.
Qed.

Lemma plus_lines_are_the_cherry_pickable_witness :
  plusLines
    (cherryOutput [(true, js "aaa1111"); (false, js "bbb2222");
                   (true, js "ccc3333")])
  = [js "aaa1111"; js "ccc3333"].
Proof.
  apply (plus_lines_are_the_cherry_pickable
           [(true, js "aaa1111"); (false, js "bbb2222"); (true, js "ccc3333")]).
  repeat constructor; vm_compute; intuition discriminate.
Defined.

(** ** [executeShellCommand] *)

Lemma split_lines_count (s acc : jsstring) :
  List.length (split_aux [line_feed] O s acc)
  = S (List.length (List.filter (char_eqb line_feed) s)).
Proof.
  revert acc. induction s as [|c r IH]; intros acc; [reflexivity|].
  cbn [split_aux startsWith List.filter].
  rewrite andb_true_r.
  destruct (char_eqb line_feed c); cbn [List.length Nat.pred]; now rewrite IH.
Qed.

(** X4: [executeShellCommand] echoes the command before it runs it; when
    the shell answers, it reports one line more than the output has line
    feeds (one line for an empty output) and returns the output as it is;
    when the shell fails, it throws after the echo and reports nothing. *)
Theorem executeShellCommand_reports (w : World) (cmd : jsstring) :
  (forall result, shell w cmd = Some result ->
     executeShellCommand w cmd
     = ([console_log (js "> " ++ cmd); execSync cmd;
         console_log_returned
           (1 + Z.of_nat
                  (List.length (List.filter (char_eqb line_feed) result)))],
        Normal result)) /\
  (shell w cmd = None ->
   executeShellCommand w cmd
   = ([console_log (js "> " ++ cmd); execSync cmd], Throw (ExecError cmd))).
Proof.
  split.
  - intros result E. rewrite executeShellCommand_run, E.
    unfold split. rewrite split_lines_count.
    replace (Z.of_nat
               (S (List.length (List.filter (char_eqb line_feed) result))))
      with (1 + Z.of_nat
                  (List.length (List.filter (char_eqb line_feed) result)))
      by lia.
    reflexivity.
  - intros E. now rewrite executeShellCommand_run, E.
Qed.

Lemma executeShellCommand_reports_witness :
  trace (executeShellCommand sample_world (cherry_query (js "dev") (js "master")))
  = [console_log (js "> " ++ cherry_query (js "dev") (js "master"));
     execSync (cherry_query (js "dev") (js "master"));
     console_log_returned 3] /\
  completion (executeShellCommand sample_world (js "git status"))
  = Throw (ExecError (js "git status")).
Proof.
  split.
  - rewrite (proj1 (executeShellCommand_reports sample_world
                      (cherry_query (js "dev") (js "master")))
               sample_cherry eq_refl).
    reflexivity.
  - rewrite (proj2 (executeShellCommand_reports sample_world (js "git status"))
               eq_refl).
    reflexivity.
Defined.

(** ** The candidates *)

Lemma records_mapM (commits : list Commit) (hashes : list jsstring) :
  (forall h, In h hashes -> findCommit commits h <> None) ->
  exists found,
    mapM
      (fun fullHash =>
         match findCommit commits fullHash with
         | None => throw (Error (js "Missing commit: " ++ fullHash))
         | Some commit => ret commit
         end)
      hashes = ret found /\
    List.map fullHash found = List.map Some hashes /\
    (forall c, In c found -> In c commits).
Proof.
  induction hashes as [|h hashes IH]; intros Hall.
  - exists []. repeat split. intros c [].
  - destruct IH as (found & E & Ehashes & Hin).
    { intros h' Hh'. apply Hall. now right. }
    destruct (findCommit commits h) as [c|] eqn:Eh;
      [|now destruct (Hall h (or_introl eq_refl))].
    destruct (findCommit_hash _ _ _ Eh) as [Ec Hc].
    exists (c :: found). split; [|split].
    + cbn [mapM]. rewrite Eh, E. reflexivity.
    + simpl. now rewrite Ec, Ehashes.
    + intros c' [<-|Hc']; [exact Hc | now apply Hin].
Qed.

(** X5: when every cherry-pickable hash has a record in the log, the
    candidates are these records, one for each hash, in the reverse order of
    the hashes. *)
Theorem candidates_are_the_records_reversed (commits : list Commit)
  (hashes : list jsstring) :
  (forall h, In h hashes -> findCommit commits h <> None) ->
  exists candidates,
    fromBranchCherryPickableCommits hashes commits = ret candidates /\
    List.map fullHash candidates = List.map Some (rev hashes) /\
    (forall c, In c candidates -> In c commits).
Proof.
  intros Hall. destruct (records_mapM commits hashes Hall) as (found & E & Eh & Hin).
  exists (rev found). split; [|split].
  - unfold fromBranchCherryPickableCommits. rewrite E. reflexivity.
  - now rewrite !map_rev, Eh.
  - intros c Hc. apply Hin. now apply in_rev.
Qed.

Lemma candidates_are_the_records_reversed_witness :
  exists candidates,
    fromBranchCherryPickableCommits
      [js "aaa1111aaa1111aaa1111aaa1111aaa1111aaa11";
       js "bbb2222bbb2222bbb2222bbb2222bbb2222bbb22"]
      [february_commit; january_commit] = ret candidates /\
    List.map fullHash candidates
    = [fullHash february_commit; fullHash january_commit].
Proof.
  destruct (candidates_are_the_records_reversed
              [february_commit; january_commit]
              [js "aaa1111aaa1111aaa1111aaa1111aaa1111aaa11";
               js "bbb2222bbb2222bbb2222bbb2222bbb2222bbb22"])
    as (candidates & E & Eh & _).
  - intros h [<-|[<-|[]]]; discriminate.
  - exists candidates. split; [exact E | exact Eh].
Defined.

(** ** The list of choices *)

Section Choices.

Context {RT : Runtime}.
Variable ib : option jsstring.
Variable hs : list jsstring.

Lemma entryMessage_defined (c : Commit) :
  author c <> None -> entryMessage ib hs c = ret (labelOf ib hs c).
Proof.
  intros Hc. unfold labelOf, entryMessage.
  destruct (author c); [reflexivity | contradiction].
Qed.

Lemma entryMessage_undefined (c : Commit) :
  author c = None -> entryMessage ib hs c = throw TypeError.
Proof. intros Hc. unfold entryMessage. now rewrite Hc. Qed.

Lemma authors_defined_or_not (cs : list Commit) :
  (forall c, In c cs -> author c <> None) \/
  (exists c, In c cs /\ author c = None).
Proof.
  induction cs as [|c cs [IH|(c' & Hin & Hc')]].
  - left. intros c [].
  - destruct (author c) eqn:Ec.
    + left. intros c' [<-|Hin]; [congruence | now apply IH].
    + right. exists c. split; [now left | exact Ec].
  - right. exists c'. split; [now right | exact Hc'].
Qed.

Lemma rows_defined (all cs : list Commit) (i : Z) :
  (forall c, In c cs -> author c <> None) ->
  sequence
    (mapi_from
       (fun commit i =>
          text <- entryMessage ib hs commit ;;
          ret [dateSeparator commit i all;
               Some (Entry (fullHash commit) text (entryQuery commit) (js ">"))])
       i cs)
  = ret (mapi_from (fun commit i => choiceRow ib hs commit i all) i cs).
Proof.
  revert i. induction cs as [|c cs IH]; intros i Hall; [reflexivity|].
  cbn [mapi_from sequence].
  rewrite entryMessage_defined by (apply Hall; now left).
  rewrite IH by (intros c' Hc'; apply Hall; now right).
  reflexivity.
Qed.

Lemma rows_undefined (all cs : list Commit) (i : Z) :
  (exists c, In c cs /\ author c = None) ->
  sequence
    (mapi_from
       (fun commit i =>
          text <- entryMessage ib hs commit ;;
          ret [dateSeparator commit i all;
               Some (Entry (fullHash commit) text (entryQuery commit) (js ">"))])
       i cs)
  = throw TypeError.
Proof.
  revert i. induction cs as [|c cs IH]; intros i (c' & Hin & Hc').
  - destruct Hin.
  - cbn [mapi_from sequence].
    destruct (author c) eqn:Ec.
    + rewrite entryMessage_defined by congruence.
      destruct Hin as [<-|Hin]; [congruence|].
      rewrite IH by now exists c'. reflexivity.
    + now rewrite entryMessage_undefined.
Qed.

Lemma choices_defined (cs : list Commit) :
  (forall c, In c cs -> author c <> None) ->
  choices ib hs cs
  = ret (filter_Boolean (flatMapi (choiceRow ib hs) cs) ++ [Separator None]).
Proof.
  intros Hall. unfold choices, flatMapiM, flatMapi, mapi.
  rewrite rows_defined by exact Hall.
  cbn [bind ret app]. now rewrite filter_Boolean_app.
Qed.

Lemma choices_undefined (cs : list Commit) :
  (exists c, In c cs /\ author c = None) -> choices ib hs cs = throw TypeError.
Proof.
  intros Hsome. unfold choices, flatMapiM, mapi.
  now rewrite rows_undefined.
Qed.

Lemma dateSeparator_shape (c : Commit) (i : Z) (all : list Commit) :
  dateSeparator c i all = None \/
  exists label, dateSeparator c i all = Some (Separator (Some label)).
Proof.
  unfold dateSeparator.
  destruct (match match at_index all (i - 1) with
                  | Some prev => Some (new_Date (timestamp prev))
                  | None => None
                  end with
            | Some prev => _
            | None => true
            end); [right; now eexists | now left].
Qed.

Lemma rows_names (all cs : list Commit) (i : Z) :
  entryNames
    (filter_Boolean
       (List.concat (mapi_from (fun c i => choiceRow ib hs c i all) i cs)))
  = List.map fullHash cs.
Proof.
  revert i. induction cs as [|c cs IH]; intros i; [reflexivity|].
  cbn [mapi_from List.concat List.map]. rewrite filter_Boolean_app.
  unfold entryNames in *. rewrite flat_map_app, IH.
  unfold choiceRow.
  destruct (dateSeparator_shape c i all) as [->|[label ->]]; reflexivity.
Qed.

Lemma rows_lead (all cs : list Commit) (i : Z) :
  separators_lead
    (filter_Boolean
       (List.concat (mapi_from (fun c i => choiceRow ib hs c i all) i cs)))
  = true.
Proof.
  revert i. induction cs as [|c cs IH]; intros i; [reflexivity|].
  cbn [mapi_from List.concat]. rewrite filter_Boolean_app.
  unfold choiceRow.
  destruct (dateSeparator_shape c i all) as [->|[label ->]]; simpl; apply IH.
Qed.

End Choices.

(** X6: when every candidate has an author, the list of choices is a body
    followed by one separator without label; the entries of the body are
    named by the full hashes of the candidates, in their order; every
    separator of the body is directly followed by an entry; the body begins
    with a separator that shows the date of the first candidate. *)
Theorem choices_list_shape `{Runtime} (ib : option jsstring)
  (hs : list jsstring) (candidates : list Commit) :
  (forall c, In c candidates -> author c <> None) ->
  exists body,
    choices ib hs candidates = ret (body ++ [Separator None]) /\
    entryNames body = List.map fullHash candidates /\
    separators_lead body = true /\
    (forall c rest, candidates = c :: rest ->
       hd_error body
       = Some (Separator (Some (formatDate (new_Date (timestamp c)))))).
Proof.
  intros Hall. eexists. split; [now apply choices_defined|].
  unfold flatMapi, mapi. split; [apply rows_names|]. split; [apply rows_lead|].
  intros c rest ->. reflexivity.
Qed.

Lemma choices_list_shape_witness :
  exists body,
    @choices node_UTC None [] [january_commit; february_evening_commit]
    = ret (body ++ [Separator None]) /\
    entryNames body
    = [fullHash january_commit; fullHash february_evening_commit].
Proof.
  destruct (@choices_list_shape node_UTC None []
              [january_commit; february_evening_commit])
    as (body & E & Enames & _).
  - intros c [<-|[<-|[]]]; discriminate.
  - exists body. split; [exact E | exact Enames].
Defined.

(** X7: the list of choices cannot be built, and a [TypeError] is thrown
    with nothing printed, exactly when some candidate has no author, which
    is the case of a record read from a log line of three fields. *)
Theorem choices_need_authors `{Runtime} (ib : option jsstring)
  (hs : list jsstring) (candidates : list Commit) :
  (choices ib hs candidates = throw TypeError <->
   exists c, In c candidates /\ author c = None) /\
  (~ (exists c, In c candidates /\ author c = None) ->
   exists list, choices ib hs candidates = ret list) /\
  (forall fromBranch seconds short full,
     ~ In colon seconds -> ~ In colon short -> ~ In colon full ->
     author (parseLogLine fromBranch
               (seconds ++ delimiter ++ short ++ delimiter ++ full))
     = None).
Proof.
  split; [split|split].
  - intros E.
    destruct (authors_defined_or_not candidates) as [Hall|Hsome]; [|exact Hsome].
    rewrite (choices_defined ib hs candidates Hall) in E. discriminate E.
  - apply choices_undefined.
  - intros Hnone.
    destruct (authors_defined_or_not candidates) as [Hall|Hsome];
      [|contradiction].
    eexists. now apply choices_defined.
  - intros fromBranch seconds short full Hseconds Hshort Hfull.
    unfold parseLogLine.
    cbn [author]. unfold split. change delimiter with (colon :: js ";:").
    rewrite (split_aux_field colon (js ";:") seconds) by exact Hseconds.
    rewrite (split_aux_field colon (js ";:") short) by exact Hshort.
    rewrite (split_aux_whole colon (js ";:") full) by exact Hfull.
    reflexivity.
Qed.

Lemma choices_need_authors_witness :
  @choices node_UTC None []
    [@parseLogLine node_UTC (js "dev") (js "1705320000:;:aaa1111:;:aaa1111aaa")]
  = throw TypeError.
Proof.
  apply (proj1 (@choices_need_authors node_UTC None []
                  [@parseLogLine node_UTC (js "dev")
                     (js "1705320000:;:aaa1111:;:aaa1111aaa")])).
  eexists. split; [left; reflexivity|].
  apply (proj2 (proj2 (@choices_need_authors node_UTC None [] []))
           (js "dev") (js "1705320000") (js "aaa1111") (js "aaa1111aaa"));
    vm_compute; intuition discriminate.
Defined.

(** ** From the selection to the command *)

Lemma findCommit_found (commits : list Commit) (wanted : jsstring) :
  In (Some wanted) (List.map fullHash commits) ->
  exists c, findCommit commits wanted = Some c.
Proof.
  intros Hin. apply in_map_iff in Hin as (c & Ec & Hc).
  unfold findCommit.
  destruct (List.find _ commits) as [c'|] eqn:E; [now exists c'|].
  pose proof (find_none _ _ E c Hc) as Hno. simpl in Hno.
  rewrite Ec in Hno. simpl in Hno.
  assert (Js.eqb wanted wanted = true) by now apply eqb_eq.
  congruence.
Qed.

Lemma choices_normal_names `{Runtime} (ib : option jsstring)
  (hs : list jsstring) (candidates : list Commit) (list : list Choice) :
  completion (choices ib hs candidates) = Normal list ->
  entryNames list = List.map fullHash candidates.
Proof.
  intros E.
  destruct (authors_defined_or_not candidates) as [Hall|Hsome].
  - rewrite (choices_defined ib hs candidates Hall) in E.
    injection E as <-. unfold flatMapi, mapi, entryNames.
    rewrite flat_map_app. cbn [flat_map]. rewrite !app_nil_r.
    apply rows_names.
  - rewrite (choices_undefined ib hs candidates Hsome) in E. discriminate E.
Qed.

(** X8: a selection made of names of the list of choices always gives a
    command: every selected name finds its candidate, so that the sort
    meets no [undefined] and the text of the command is built. *)
Theorem selection_from_the_list_gives_a_command `{Runtime}
  (ib : option jsstring) (hs : list jsstring) (candidates : list Commit)
  (shown : list Choice) (selected : list jsstring)
  (cb : option jsstring) (tb : jsstring) :
  completion (choices ib hs candidates) = Normal shown ->
  (forall h, In h selected -> In (Some h) (entryNames shown)) ->
  exists sorted text,
    cherryPickCommits selected candidates = List.map Some sorted /\
    List.length sorted = List.length selected /\
    command cb tb (cherryPickCommits selected candidates) = ret text.
Proof.
  intros Elist Hselected.
  rewrite (choices_normal_names ib hs candidates shown Elist) in Hselected.
  destruct (found_records candidates selected) as (found & Efound & Elines).
  { intros h Hh. apply findCommit_found. now apply Hselected. }
  exists (sort_defined byTimestamp found).
  assert (E : cherryPickCommits selected candidates
              = List.map Some (sort_defined byTimestamp found)).
  { unfold cherryPickCommits, Array_sort.
    rewrite Efound, filter_Boolean_defined, undefineds_defined.
    apply app_nil_r. }
  eexists. split; [exact E|]. split.
  - rewrite (Permutation_length (sort_defined_perm byTimestamp found)).
    apply (f_equal (@List.length (option Commit))) in Efound.
    now rewrite !length_map in Efound.
  - rewrite E. apply command_defined.
Qed.

Lemma selection_from_the_list_gives_a_command_witness :
  exists sorted text,
    cherryPickCommits
      [js "bbb2222bbb2222bbb2222bbb2222bbb2222bbb22"]
      [january_commit; february_commit] = List.map Some sorted /\
    List.length sorted = 1%nat /\
    command None (js "master")
      (cherryPickCommits
         [js "bbb2222bbb2222bbb2222bbb2222bbb2222bbb22"]
         [january_commit; february_commit]) = ret text.
Proof.
  eapply (@selection_from_the_list_gives_a_command node_UTC None []
            [january_commit; february_commit]).
  - reflexivity.
  - intros h [<-|[]]. vm_compute. right. left. reflexivity.
Defined.

Lemma mapM_cherryPickLine_undefined (cs : list Commit)
  (rest : list (option Commit)) :
  completion (mapM cherryPickLine (List.map Some cs ++ None :: rest))
  = Throw TypeError.
Proof.
  induction cs as [|c cs IH]; [reflexivity|].
  cbn [List.map app mapM]. rewrite completion_bind. cbn [cherryPickLine ret completion snd].
  now rewrite completion_bind, IH.
Qed.

Lemma undefineds_found {A : Type} (l : list (option A)) :
  In None l -> exists rest, undefineds l = None :: rest.
Proof.
  induction l as [|[x|] l IH]; intros Hin.
  - destruct Hin.
  - destruct Hin as [Hin|Hin]; [discriminate Hin|]. simpl. now apply IH.
  - simpl. now eexists.
Qed.

(** X9: a selected name that is not the full hash of a candidate leaves an
    [undefined] in the sorted array, after all the records that were found,
    and building the command throws a [TypeError]. *)
Theorem unknown_name_is_a_type_error (selected : list jsstring)
  (candidates : list Commit) (cb : option jsstring) (tb : jsstring) :
  (exists h, In h selected /\ findCommit candidates h = None) ->
  (exists sorted rest,
     cherryPickCommits selected candidates
     = List.map Some sorted ++ None :: rest /\
     forall o, In o rest -> o = None) /\
  completion (command cb tb (cherryPickCommits selected candidates))
  = Throw TypeError.
Proof.
  intros (h & Hh & Hnone).
  assert (Hin : In None (List.map (findCommit candidates) selected)).
  { rewrite <- Hnone. now apply in_map. }
  destruct (undefineds_found _ Hin) as [rest Erest].
  unfold cherryPickCommits, Array_sort. rewrite Erest. split.
  - eexists _, rest. split; [reflexivity|].
    intros o Ho.
    assert (Ho' : In o (undefineds (List.map (findCommit candidates) selected))).
    { rewrite Erest. now right. }
    unfold undefineds in Ho'. apply filter_In in Ho' as [_ Ho'].
    now destruct o.
  - unfold command. now rewrite completion_bind, mapM_cherryPickLine_undefined.
Qed.

Lemma unknown_name_is_a_type_error_witness :
  completion
    (command None (js "master")
       (cherryPickCommits [js "ffff"] [january_commit; february_commit]))
  = Throw TypeError.
Proof.
  apply (unknown_name_is_a_type_error [js "ffff"]
           [january_commit; february_commit] None (js "master")).
  exists (js "ffff"). split; [left; reflexivity | reflexivity].
Defined.

(** ** Failures of the shell *)

Section FailedQuery.

Context {RT : Runtime}.
Variable w : World.

Lemma shellCommands_app (t u : list Event) :
  shellCommands (t ++ u) = shellCommands t ++ shellCommands u.
Proof. apply flat_map_app. Qed.

Lemma getCherryPickableFullHashes_commands (a b : jsstring) :
  shellCommands (trace (getCherryPickableFullHashes w a b))
  = [cherry_query a b].
Proof.
  unfold getCherryPickableFullHashes.
  rewrite trace_bind, executeShellCommand_run.
  now destruct (shell w (cherry_query a b)).
Qed.

Lemma getLatestCommits_commands (a b : jsstring) :
  shellCommands (trace (getLatestCommits w a b)) = [log_query a b].
Proof.
  unfold getLatestCommits.
  rewrite trace_bind, executeShellCommand_run.
  now destruct (shell w (log_query a b)).
Qed.

Lemma candidates_commands (hashes inc : list jsstring) (commits : list Commit) :
  shellCommands
    (trace
       (candidates <- fromBranchCherryPickableCommits hashes commits ;;
        ret (inc, candidates))) = [].
Proof.
  rewrite trace_bind.
  rewrite (no_events _ (candidates_events hashes commits (fun _ => False))).
  now destruct (completion (fromBranchCherryPickableCommits hashes commits)).
Qed.

(** The commands of [fetch]: each query is run when the ones before it
    were answered. *)
Lemma fetch_commands :
  shellCommands (trace (fetch w))
  = cherry_query (fromBranch w) (toBranch w)
    :: match shell w (cherry_query (fromBranch w) (toBranch w)) with
       | None => []
       | Some _ =>
           if truthy (includeBranch w)
           then cherry_query (fromBranch w) (interpolate (includeBranch w))
                :: match shell w (cherry_query (fromBranch w)
                                    (interpolate (includeBranch w))) with
                   | None => []
                   | Some _ => [log_query (fromBranch w) (toBranch w)]
                   end
           else [log_query (fromBranch w) (toBranch w)]
       end.
Proof.
  unfold fetch.
  rewrite trace_bind, shellCommands_app, getCherryPickableFullHashes_commands,
    getCherryPickableFullHashes_completion.
  destruct (shell w (cherry_query (fromBranch w) (toBranch w))) as [out|];
    [|reflexivity].
  cbv beta iota. rewrite trace_bind, shellCommands_app.
  destruct (truthy (includeBranch w)).
  - rewrite getCherryPickableFullHashes_commands,
      getCherryPickableFullHashes_completion.
    destruct (shell w (cherry_query (fromBranch w)
                         (interpolate (includeBranch w)))) as [o|];
      [|reflexivity].
    cbv beta iota.
    rewrite trace_bind, shellCommands_app, getLatestCommits_commands,
      getLatestCommits_completion.
    destruct (shell w (log_query (fromBranch w) (toBranch w))) as [l|];
      [|reflexivity].
    cbv beta iota. now rewrite candidates_commands.
  - cbn [ret trace completion fst snd shellCommands flat_map app].
    rewrite trace_bind, shellCommands_app, getLatestCommits_commands,
      getLatestCommits_completion.
    destruct (shell w (log_query (fromBranch w) (toBranch w))) as [l|];
      [|reflexivity].
    cbv beta iota. now rewrite candidates_commands.
Qed.

(** The first query that fails ends [fetch]. *)
Lemma fetch_fails :
  (exists q, In q (queries w) /\ shell w q = None) ->
  exists before q after,
    queries w = before ++ q :: after /\
    (forall p, In p before -> shell w p <> None) /\
    shell w q = None /\
    shellCommands (trace (fetch w)) = before ++ [q] /\
    completion (fetch w) = Throw (ExecError q).
Proof.
  intros (q0 & Hq0 & Efail).
  rewrite fetch_commands. unfold queries in *. unfold fetch.
  rewrite completion_bind, getCherryPickableFullHashes_completion.
  destruct (shell w (cherry_query (fromBranch w) (toBranch w))) as [out|] eqn:E1.
  2:{ exists [], (cherry_query (fromBranch w) (toBranch w)). eexists.
      split; [reflexivity|]. split; [intros p Hp; destruct Hp|].
      split; [exact E1|]. split; reflexivity. }
  rewrite completion_bind.
  destruct (truthy (includeBranch w)).
  - rewrite getCherryPickableFullHashes_completion.
    destruct (shell w (cherry_query (fromBranch w)
                         (interpolate (includeBranch w)))) as [o|] eqn:E2.
    2:{ exists [cherry_query (fromBranch w) (toBranch w)],
          (cherry_query (fromBranch w) (interpolate (includeBranch w))).
        eexists. split; [reflexivity|]. split.
        { intros p [<-|Hp]; [congruence | destruct Hp]. }
        split; [exact E2|]. split; reflexivity. }
    rewrite completion_bind, getLatestCommits_completion.
    destruct (shell w (log_query (fromBranch w) (toBranch w))) as [l|] eqn:E3.
    + simpl in Hq0. destruct Hq0 as [<-|[<-|[<-|Hq0]]];
        [congruence | congruence | congruence | destruct Hq0].
    + exists [cherry_query (fromBranch w) (toBranch w);
              cherry_query (fromBranch w) (interpolate (includeBranch w))],
        (log_query (fromBranch w) (toBranch w)), [].
      split; [reflexivity|]. split.
      { intros p [<-|[<-|Hp]]; [congruence | congruence | destruct Hp]. }
      split; [exact E3|]. split; reflexivity.
  - cbn [ret completion snd].
    rewrite completion_bind, getLatestCommits_completion.
    destruct (shell w (log_query (fromBranch w) (toBranch w))) as [l|] eqn:E3.
    + simpl in Hq0. destruct Hq0 as [<-|[<-|Hq0]];
        [congruence | congruence | destruct Hq0].
    + exists [cherry_query (fromBranch w) (toBranch w)],
        (log_query (fromBranch w) (toBranch w)), [].
      split; [reflexivity|]. split.
      { intros p [<-|Hp]; [congruence | destruct Hp]. }
      split; [exact E3|]. split; reflexivity.
Qed.

End FailedQuery.

(** X10: when one of the queries of a run fails, the script ends with the
    error of the first query that fails and with status 1: the queries
    before it, in the order cherry comparison with the target branch, cherry
    comparison with the include branch when there is one, log, were
    answered; the shell received them and the failing query, in this order,
    and nothing else; no prompt was shown, every event of the run belongs to
    a query. *)
Theorem failed_query_is_fatal `{Runtime} (w : World) :
  values_help w = false ->
  (exists q, In q (queries w) /\ shell w q = None) ->
  exists before q after,
    queries w = before ++ q :: after /\
    (forall p, In p before -> shell w p <> None) /\
    In q (queries w) /\ shell w q = None /\
    shellCommands (trace (main w)) = before ++ [q] /\
    completion (main w) = Throw (ExecError q) /\
    exit_status (completion (main w)) = 1 /\
    Forall (is_query_event w) (trace (main w)).
Proof.
  intros Hhelp Hfails.
  destruct (fetch_fails w Hfails)
    as (before & q & after & Equeries & Hbefore & Eq & Ecommands & Efetch).
  exists before, q, after.
  rewrite (main_fetch_throws w _ Hhelp Efetch).
  split; [exact Equeries|]. split; [exact Hbefore|]. split.
  { rewrite Equeries. apply in_or_app. right. now left. }
  split; [exact Eq|]. split; [exact Ecommands|]. split; [reflexivity|].
  split; [reflexivity | apply fetch_events].
Qed.

Lemma failed_query_is_fatal_witness :
  exists before q after,
    queries log_fails_world = before ++ q :: after /\
    shellCommands (trace (@main node_UTC log_fails_world)) = before ++ [q] /\
    completion (@main node_UTC log_fails_world) = Throw (ExecError q).
Proof.
  destruct (@failed_query_is_fatal node_UTC log_fails_world)
    as (before & q & after & Equeries & _ & _ & _ & Ecommands & E & _).
  - reflexivity.
  - exists (log_query (js "dev") (js "master")).
    split; [right; left; reflexivity | reflexivity].
  - exists before, q, after.
    split; [exact Equeries|]. split; [exact Ecommands | exact E].
Defined.

(** ** The clipboard *)

Section Clipboard.

Context {RT : Runtime}.
Variable w : World.

Lemma written_free (t : list Event) :
  Forall is_clipboard_free t -> written_after_confirmation w t.
Proof.
  intros Hfree text Hin. rewrite Forall_forall in Hfree.
  destruct (Hfree _ Hin).
Qed.

Lemma written_prefix (pre t : list Event) :
  Forall is_clipboard_free pre ->
  written_after_confirmation w t -> written_after_confirmation w (pre ++ t).
Proof.
  intros Hfree Ht text Hin. apply in_app_or in Hin as [Hin|Hin].
  - rewrite Forall_forall in Hfree. destruct (Hfree _ Hin).
  - destruct (Ht text Hin) as (Hyes & before & after & E).
    split; [exact Hyes|]. exists (pre ++ before), after.
    now rewrite E, app_assoc.
Qed.

Lemma written_bind {A B : Type} (m : M A) (k : A -> M B) :
  Forall is_clipboard_free (trace m) ->
  (forall a, written_after_confirmation w (trace (k a))) ->
  written_after_confirmation w (trace (bind m k)).
Proof.
  intros Hm Hk. rewrite trace_bind. apply written_prefix; [exact Hm|].
  destruct (completion m); [apply Hk | |]; apply written_free; constructor.
Qed.

Lemma written_offerClipboard (text : jsstring) :
  written_after_confirmation w (trace (offerClipboard w text)).
Proof.
  unfold offerClipboard.
  destruct (confirm w) as [[|]|] eqn:Econfirm.
  - intros text' Hin. split; [exact Econfirm|].
    assert (text' = text) as ->.
    { destruct (clipboard w text); simpl in Hin;
        repeat (destruct Hin as [Hin|Hin]; [congruence|]); destruct Hin. }
    exists [console_log []].
    destruct (clipboard w text); eexists; reflexivity.
  - apply written_free. simpl. repeat (apply Forall_cons; [exact I|]). constructor.
  - apply written_free. simpl. repeat (apply Forall_cons; [exact I|]). constructor.
Qed.

Lemma query_events_clipboard_free (t : list Event) :
  Forall (is_query_event w) t -> Forall is_clipboard_free t.
Proof.
  apply Forall_impl. intros e He. now destruct e.
Qed.

Lemma written_pick (inc : list jsstring) (cands : list Commit) :
  written_after_confirmation w (trace (pick w inc cands)).
Proof.
  unfold pick. apply written_bind; [apply choices_events|]. intros shown.
  apply written_bind; [apply Forall_cons; [exact I | constructor]|]. intros _.
  destruct (autocomplete w shown) as [selected|].
  - destruct (Z.of_nat (List.length (cherryPickCommits selected cands)) =? 0).
    + apply written_free. apply Forall_cons; [exact I | constructor].
    + apply written_bind; [apply command_events|]. intros text.
      apply written_offerClipboard.
  - apply written_free. apply Forall_cons; [exact I | constructor].
Qed.

End Clipboard.

(** X11: the script writes to the clipboard only when the user has
    confirmed, and what it writes is the text it has just printed: the
    write comes right after the print of the text, the empty line and the
    confirmation prompt. *)
Theorem clipboard_gets_the_printed_command `{Runtime} (w : World)
  (text : jsstring) :
  In (clipboard_writeSync text) (trace (main w)) ->
  confirm w = Some true /\
  exists before after,
    trace (main w)
    = before ++
      [console_log text; console_log []; Confirm_run; clipboard_writeSync text]
      ++ after.
Proof.
  revert text. change (written_after_confirmation w (trace (main w))).
  unfold main. destruct (values_help w).
  { apply written_free. apply Forall_cons; [exact I | constructor]. }
  apply written_bind.
  { apply (query_events_clipboard_free w), fetch_events. }
  intros [inc cands]. destruct (Z.of_nat (List.length cands) =? 0).
  - apply written_free. apply Forall_cons; [exact I | constructor].
  - apply written_pick.
Qed.

Lemma clipboard_gets_the_printed_command_witness :
  confirm sample_world = Some true /\
  exists before after,
    trace (@main node_UTC sample_world)
    = before ++
      [console_log
         (join
            [switchLine (js "HRIS-123-CP-PROD") (js "master");
             pickText january_commit; pickText february_commit;
             pushLine (js "HRIS-123-CP-PROD");
             prLine (js "HRIS-123-CP-PROD") (js "master")]
            chain);
       console_log []; Confirm_run;
       clipboard_writeSync
         (join
            [switchLine (js "HRIS-123-CP-PROD") (js "master");
             pickText january_commit; pickText february_commit;
             pushLine (js "HRIS-123-CP-PROD");
             prLine (js "HRIS-123-CP-PROD") (js "master")]
            chain)]
      ++ after.
Proof.
  apply (@clipboard_gets_the_printed_command node_UTC sample_world).
  vm_compute. do 11 right. left. reflexivity.
Defined.

(** ** More on [truncate] *)

Lemma trimStart_length (s : jsstring) :
  (List.length (trimStart s) <= List.length s)%nat.
Proof.
  induction s as [|c s IH]; simpl; [lia|].
  destruct (is_whitespace c); simpl; lia.
Qed.

Lemma trimEnd_length (s : jsstring) :
  (List.length (trimEnd s) <= List.length s)%nat.
Proof.
  induction s as [|c s IH]; simpl; [lia|].
  destruct (trimEnd s); [destruct (is_whitespace c)|]; simpl in *; lia.
Qed.

Lemma trim_length (s : jsstring) : (List.length (trim s) <= List.length s)%nat.
Proof.
  unfold trim. pose proof (trimEnd_length (trimStart s)).
  pose proof (trimStart_length s). lia.
Qed.

(** X12: for a limit of at least 1 the result of [truncate] is never
    longer than the limit; a text that was cut ends with the ellipsis; and
    truncating twice is truncating once. *)
Theorem truncate_fits (text : jsstring) (n : Z) :
  1 <= n ->
  Js.length (truncate text n) <= n /\
  (n < Js.length text -> exists kept, truncate text n = kept ++ [ellipsis]) /\
  truncate (truncate text n) n = truncate text n.
Proof.
  intros Hn.
  assert (Hfits : Js.length (truncate text n) <= n).
  { destruct (Z.le_gt_cases (Js.length text) n) as [Hle|Hgt].
    - now rewrite truncate_within.
    - rewrite truncate_beyond by lia. unfold Js.length.
      rewrite length_app. cbn [List.length].
      pose proof (trim_length (firstn (Z.to_nat (n - 1)) text)) as Htrim.
      pose proof (firstn_le_length (Z.to_nat (n - 1)) text) as Hcut.
      rewrite length_firstn in Htrim. lia. }
  split; [exact Hfits|]. split.
  - intros Hgt. rewrite truncate_beyond by lia. now eexists.
  - now apply truncate_within.
Qed.

Lemma truncate_fits_witness :
  Js.length (truncate subject_with_space 80) <= 80 /\
  truncate (truncate subject_with_space 80) 80 = truncate subject_with_space 80.
Proof.
  destruct (truncate_fits subject_with_space 80) as (Hfits & _ & Hagain).
  - lia.
  - split; [exact Hfits | exact Hagain].
Defined.

(** ** More on [suggest] *)

Section SuggestAgain.

Context {RT : Runtime}.
Variable typed : jsstring.

Lemma suggest_by_words_fixed (l : list Choice) :
  separators_lead l = true ->
  (forall e, In e l -> is_separator e = false -> matches typed e = true) ->
  suggest_by_words typed l = l.
Proof.
  induction l as [|[label|name text query indicator] r IH]; intros Hlead Hall.
  - reflexivity.
  - cbn [suggest_by_words is_separator].
    destruct r as [|[label'|n t q i] r']; try discriminate Hlead.
    assert (Hhead : matches typed (Entry n t q i) = true).
    { apply Hall; [right; now left | reflexivity]. }
    cbn [match_before_separator]. rewrite Hhead. cbn [orb].
    f_equal. apply IH; [exact Hlead|].
    intros e He. apply Hall. now right.
  - cbn [suggest_by_words is_separator].
    rewrite (Hall _ (or_introl eq_refl) eq_refl).
    f_equal. apply IH; [exact Hlead|].
    intros e He. apply Hall. now right.
Qed.

Lemma suggest_by_words_matching (l : list Choice) (e : Choice) :
  In e (suggest_by_words typed l) -> is_separator e = false ->
  matches typed e = true.
Proof.
  induction l as [|c r IH]; intros Hin He; [destruct Hin|].
  cbn [suggest_by_words] in Hin.
  destruct (is_separator c) eqn:Ec.
  - destruct (match_before_separator typed r); [|now apply IH].
    destruct Hin as [<-|Hin]; [congruence | now apply IH].
  - destruct (matches typed c) eqn:Em; [|now apply IH].
    destruct Hin as [<-|Hin]; [exact Em | now apply IH].
Qed.

Lemma suggest_by_words_in (l : list Choice) (e : Choice) :
  In e (suggest_by_words typed l) -> In e l.
Proof.
  induction l as [|c r IH]; intros Hin; [destruct Hin|].
  cbn [suggest_by_words] in Hin.
  destruct (if is_separator c then _ else _).
  - destruct Hin as [<-|Hin]; [now left | right; now apply IH].
  - right. now apply IH.
Qed.

(** The whole list without its last separator, when every entry matches. *)
Lemma suggest_by_words_body (body : list Choice) (label : option jsstring) :
  separators_lead body = true ->
  (forall e, In e body -> is_separator e = false -> matches typed e = true) ->
  suggest_by_words typed (body ++ [Separator label]) = body.
Proof.
  induction body as [|[label'|name text query indicator] r IH];
    intros Hlead Hall.
  - reflexivity.
  - cbn [app suggest_by_words is_separator].
    destruct r as [|[label''|n t q i] r']; try discriminate Hlead.
    assert (Hhead : matches typed (Entry n t q i) = true).
    { apply Hall; [right; now left | reflexivity]. }
    cbn [app match_before_separator]. rewrite Hhead. cbn [orb].
    f_equal. apply IH; [exact Hlead|].
    intros e He. apply Hall. now right.
  - cbn [app suggest_by_words is_separator].
    rewrite (Hall _ (or_introl eq_refl) eq_refl).
    f_equal. apply IH; [exact Hlead|].
    intros e He. apply Hall. now right.
Qed.

End SuggestAgain.

(** X13: [suggest] only removes entries of the list, every entry it keeps
    matches the query, and filtering its result again with the same query
    changes nothing. *)
Theorem suggest_is_idempotent `{Runtime} (typed : jsstring)
  (choices : list Choice) :
  (forall e, In e (suggest typed choices) ->
     In e choices /\ (is_separator e = false -> matches typed e = true)) /\
  suggest typed (suggest typed choices) = suggest typed choices.
Proof.
  rewrite !suggest_as_words. split.
  - intros e He. split.
    + now apply (suggest_by_words_in typed choices).
    + now apply (suggest_by_words_matching typed choices).
  - apply suggest_by_words_fixed.
    + apply suggest_by_words_leads.
    + apply suggest_by_words_matching.
Qed.

Lemma suggest_is_idempotent_witness :
  In (Entry (Some (js "aaa")) (js "a1 Fix the build Alice")
        (js "a1fixthebuildbyalice") (js ">")) two_days /\
  @matches node_UTC (js "FIX")
    (Entry (Some (js "aaa")) (js "a1 Fix the build Alice")
       (js "a1fixthebuildbyalice") (js ">")) = true.
Proof.
  destruct (proj1 (@suggest_is_idempotent node_UTC (js "FIX") two_days)
              (Entry (Some (js "aaa")) (js "a1 Fix the build Alice")
                 (js "a1fixthebuildbyalice") (js ">")))
    as [Hin Hmatches].
  - vm_compute. right. left. reflexivity.
  - split; [exact Hin | apply Hmatches; reflexivity].
Defined.

Lemma includes_empty (s : jsstring) : includes s [] = true.
Proof. now destruct s. Qed.

(** X14: when nothing is typed, and the lower case of the empty string is
    the empty string, [suggest] shows the whole list of choices but its last
    separator: every commit and every date. *)
Theorem empty_query_shows_everything `{Runtime} (ib : option jsstring)
  (hs : list jsstring) (candidates : list Commit) (shown : list Choice) :
  toLowerCase [] = [] ->
  completion (choices ib hs candidates) = Normal shown ->
  shown = suggest [] shown ++ [Separator None] /\
  entryNames (suggest [] shown) = List.map fullHash candidates.
Proof.
  intros Hlower E.
  destruct (authors_defined_or_not candidates) as [Hall|Hsome].
  2:{ rewrite (choices_undefined ib hs candidates Hsome) in E. discriminate E. }
  rewrite (choices_defined ib hs candidates Hall) in E. injection E as <-.
  rewrite suggest_as_words, suggest_by_words_body.
  - split; [reflexivity|]. unfold flatMapi, mapi. apply rows_names.
  - unfold flatMapi, mapi. apply rows_lead.
  - intros [label|name text query indicator] _ He; [discriminate He|].
    simpl. rewrite Hlower. apply includes_empty.
Qed.

Lemma empty_query_shows_everything_witness :
  entryNames
    (@suggest node_UTC []
       [Separator (Some (js "Mon Jan 15 2024"));
        Entry (fullHash january_commit) (js "aaa1111 Add the parser Alice")
          (js "aaa1111addtheparserbyalice") (js ">");
        Entry (fullHash february_commit) (js "bbb2222 Use the parser Bob")
          (js "bbb2222usetheparserbybob") (js ">");
        Separator None])
  = [fullHash january_commit; fullHash february_commit].
Proof.
  apply (proj2 (@empty_query_shows_everything node_UTC None []
                  [january_commit; february_commit] _ eq_refl eq_refl)).
Defined.

(** ** More on the title of the pull request *)

Lemma title_as_words (branch : jsstring) :
  generatePullRequestTitleFromBranch branch = title_by_words branch.
Proof.
  unfold generatePullRequestTitleFromBranch, replaceAll, indexOf.
  apply title_from.
Qed.

Lemma spaces_have_no_hyphen (s : jsstring) :
  List.filter (fun c => char_eqb c hyphen) (spaces_for_hyphens s) = [].
Proof.
  induction s as [|c s IH]; [reflexivity|].
  simpl. destruct (char_eqb c hyphen) eqn:E; simpl; [exact IH|].
  now rewrite E.
Qed.

Lemma spaces_again (s : jsstring) :
  spaces_for_hyphens (spaces_for_hyphens s) = spaces_for_hyphens s.
Proof.
  induction s as [|c s IH]; [reflexivity|].
  simpl. rewrite IH. destruct (char_eqb c hyphen) eqn:E; [reflexivity|].
  now rewrite E.
Qed.

(** X15: the title has the length of the branch name; it has one hyphen
    when the branch name has any and none otherwise; the title of a title
    is the title itself. *)
Theorem title_has_one_hyphen (branch : jsstring) :
  List.length (generatePullRequestTitleFromBranch branch) = List.length branch /\
  List.filter (fun c => char_eqb c hyphen)
    (generatePullRequestTitleFromBranch branch)
  = firstn 1 (List.filter (fun c => char_eqb c hyphen) branch) /\
  generatePullRequestTitleFromBranch (generatePullRequestTitleFromBranch branch)
  = generatePullRequestTitleFromBranch branch.
Proof.
  rewrite !title_as_words. split; [|split].
  - induction branch as [|c s IH]; [reflexivity|]. simpl.
    destruct (char_eqb c hyphen); simpl; [|now rewrite IH].
    unfold spaces_for_hyphens. now rewrite length_map.
  - induction branch as [|c s IH]; [reflexivity|].
    cbn [title_by_words List.filter].
    destruct (char_eqb c hyphen) eqn:E.
    + apply char_eqb_eq in E. subst c. cbn [List.filter firstn].
      change (char_eqb hyphen hyphen) with true. cbn iota.
      now rewrite spaces_have_no_hyphen.
    + cbn [List.filter]. now rewrite E.
  - induction branch as [|c s IH]; [reflexivity|].
    cbn [title_by_words].
    destruct (char_eqb c hyphen) eqn:E.
    + cbn [title_by_words].
      change (char_eqb hyphen hyphen) with true. cbn iota.
      now rewrite spaces_again.
    + cbn [title_by_words]. now rewrite E, IH.
Qed.

(** ** The sort is stable *)

Lemma insert_stable (k : Z) (x : Commit) (l : list Commit) :
  List.filter (fun c => timestamp c =? k) (insert byTimestamp x l)
  = List.filter (fun c => timestamp c =? k) (x :: l).
Proof.
  induction l as [|y l IH]; [reflexivity|].
  cbn [insert]. unfold byTimestamp at 1.
  destruct (Z.gtb_spec (timestamp x - timestamp y) 0) as [Hgt|Hle];
    [|reflexivity].
  cbn [List.filter] in *. rewrite IH.
  destruct (Z.eqb_spec (timestamp x) k), (Z.eqb_spec (timestamp y) k);
    try reflexivity.
  lia.
Qed.

(** X16: the sort keeps the order of the selection among the commits of
    one time stamp: for every time stamp, the selected commits that have it
    come out in the order in which they were selected. *)
Theorem equal_timestamps_keep_the_selection_order (selected : list jsstring)
  (candidates : list Commit) (k : Z) :
  List.filter (fun c => timestamp c =? k)
    (filter_Boolean (cherryPickCommits selected candidates))
  = List.filter (fun c => timestamp c =? k)
      (filter_Boolean (List.map (findCommit candidates) selected)).
Proof.
  unfold cherryPickCommits. rewrite filter_Boolean_Array_sort.
  induction (filter_Boolean (List.map (findCommit candidates) selected))
    as [|x l IH]; [reflexivity|].
  cbn [sort_defined fold_right]. rewrite insert_stable.
  cbn [List.filter]. fold (sort_defined byTimestamp l). now rewrite IH.
Qed.

(** ** Nothing to pick *)

Lemma no_plus_lines (out : jsstring) :
  (forall line, In line (split out [line_feed]) ->
     startsWith line (js "+") = false) ->
  plusLines out = [].
Proof.
  intros Hnone. unfold plusLines.
  induction (split out [line_feed]) as [|line lines IH]; [reflexivity|].
  cbn [List.filter]. rewrite (Hnone line (or_introl eq_refl)).
  apply IH. intros l Hl. apply Hnone. now right.
Qed.

(** X17: when git answers the queries and no line of the cherry comparison
    starts with a plus sign (the output may be empty), the script prints
    [No commits to pick from] and exits with status 0, whatever the log
    holds; it shows no prompt. *)
Theorem no_plus_line_is_a_clean_exit `{Runtime} (w : World) (out log : jsstring) :
  values_help w = false ->
  shell w (cherry_query (fromBranch w) (toBranch w)) = Some out ->
  (truthy (includeBranch w) = true ->
   shell w (cherry_query (fromBranch w) (interpolate (includeBranch w)))
   <> None) ->
  shell w (log_query (fromBranch w) (toBranch w)) = Some log ->
  (forall line, In line (split out [line_feed]) ->
     startsWith line (js "+") = false) ->
  clean_exit (main w) (trace (fetch w)) (js "No commits to pick from") /\
  asks_nothing (trace (main w)).
Proof.
  intros Hhelp Hout Hinc Hlog Hnone.
  destruct (fetch_completion w out log Hout Hinc Hlog) as [inc Efetch].
  rewrite (no_plus_lines out Hnone) in Efetch.
  cbn [fromBranchCherryPickableCommits mapM bind ret completion snd rev]
    in Efetch.
  assert (E : main w
              = (trace (fetch w) ++ [console_log (js "No commits to pick from")],
                 ProcessExit 0)).
  { rewrite (main_after_fetch w Hhelp).
    destruct (fetch w) as [t c]. simpl in Efetch. now subst c. }
  split.
  - apply clean_exit_intro; [exact E | apply fetch_offers_nothing].
  - rewrite E. intros e He. cbn [trace fst] in He.
    apply in_app_or in He as [He|[<-|[]]]; [|exact I].
    exact (query_events_ask_nothing w _ (fetch_events w) e He).
Qed.

Lemma no_plus_line_is_a_clean_exit_witness :
  completion (@main node_UTC (with_git [] sample_log sample_world))
  = ProcessExit 0.
Proof.
  destruct (@no_plus_line_is_a_clean_exit node_UTC
              (with_git [] sample_log sample_world) [] sample_log)
    as [(E & _ & _) _].
  - reflexivity.
  - reflexivity.
  - discriminate.
  - reflexivity.
  - intros line [<-|[]]. reflexivity.
  - now rewrite E.
Defined.

(** ** The names of the branches *)

Lemma or_default_not_empty (a : option jsstring) (b : jsstring) :
  b <> [] -> or_default a b <> [].
Proof.
  intros Hb. unfold or_default, or_else.
  destruct a as [[|c s]|]; simpl; try exact Hb. discriminate.
Qed.

(** X18: the names of the source and target branches are never empty: an
    option that is not empty wins; an option that is absent or empty gives
    way to the environment variable when this one is not empty, and to
    [dev] and [master] when the variable is absent or empty as well.  The
    name of the cherry-pick branch is absent or not empty.  The include
    branch is the option when it is not empty and the environment variable
    otherwise. *)
Theorem branch_names_are_not_empty (w : World) :
  fromBranch w <> [] /\ toBranch w <> [] /\
  (forall name, name <> [] -> values_from w = Some name -> fromBranch w = name) /\
  (forall name, name <> [] -> values_to w = Some name -> toBranch w = name) /\
  (truthy (values_from w) = false ->
   truthy (env_CHERRY_QUICK_DEFAULT_FROM_BRANCH w) = false ->
   fromBranch w = js "dev") /\
  (truthy (values_to w) = false ->
   truthy (env_CHERRY_QUICK_DEFAULT_TO_BRANCH w) = false ->
   toBranch w = js "master") /\
  (cherryPickBranch w = None \/
   exists name, name <> [] /\ cherryPickBranch w = Some name) /\
  (truthy (values_from w) = false ->
   forall name, name <> [] ->
     env_CHERRY_QUICK_DEFAULT_FROM_BRANCH w = Some name ->
     fromBranch w = name) /\
  (truthy (values_to w) = false ->
   forall name, name <> [] ->
     env_CHERRY_QUICK_DEFAULT_TO_BRANCH w = Some name ->
     toBranch w = name) /\
  (forall name, name <> [] -> values_include w = Some name ->
     includeBranch w = Some name) /\
  (truthy (values_include w) = false ->
   includeBranch w = env_CHERRY_QUICK_DEFAULT_INCLUDE_BRANCH w).
Proof.
  unfold fromBranch, toBranch, DEFAULT_FROM_BRANCH, DEFAULT_TO_BRANCH,
    cherryPickBranch, includeBranch, DEFAULT_INCLUDE_BRANCH.
  repeat match goal with |- _ /\ _ => split end.
  - apply or_default_not_empty, or_default_not_empty. discriminate.
  - apply or_default_not_empty, or_default_not_empty. discriminate.
  - intros [|c s] Hname ->; [contradiction | reflexivity].
  - intros [|c s] Hname ->; [contradiction | reflexivity].
  - intros Hvalue Henv. unfold or_default, or_else.
    rewrite Hvalue. cbn [truthy]. now rewrite Henv.
  - intros Hvalue Henv. unfold or_default, or_else.
    rewrite Hvalue. cbn [truthy]. now rewrite Henv.
  - unfold or_else. destruct (values_branch w) as [[|c s]|]; simpl;
      [now left | right | now left].
    eexists. split; [|reflexivity]. discriminate.
  - intros Hvalue [|c s] Hname Henv; [contradiction|].
    unfold or_default, or_else. rewrite Hvalue, Henv. reflexivity.
  - intros Hvalue [|c s] Hname Henv; [contradiction|].
    unfold or_default, or_else. rewrite Hvalue, Henv. reflexivity.
  - intros [|c s] Hname ->; [contradiction | reflexivity].
  - intros Hvalue. unfold or_else. now rewrite Hvalue.
Qed.

Lemma branch_names_are_not_empty_witness :
  fromBranch
    (mkWorld (Some []) None None (Some []) None None (Some []) false
       (fun _ => None) (fun _ => None) None (fun _ => true))
  = js "dev" /\
  toBranch
    (mkWorld None None (Some (js "main")) None (Some []) None None false
       (fun _ => None) (fun _ => None) None (fun _ => true))
  = js "main".
Proof.
  split.
  - apply (proj1 (proj2 (proj2 (proj2 (proj2
             (branch_names_are_not_empty
                (mkWorld (Some []) None None (Some []) None None (Some []) false
                   (fun _ => None) (fun _ => None) None (fun _ => true)))))))).
    + reflexivity.
    + reflexivity.
  - apply (proj1 (proj2 (proj2 (proj2 (proj2 (proj2 (proj2 (proj2 (proj2
             (branch_names_are_not_empty
                (mkWorld None None (Some (js "main")) None (Some []) None None
                   false (fun _ => None) (fun _ => None) None
                   (fun _ => true)))))))))))).
    + reflexivity.
    + discriminate.
    + reflexivity.
Defined.

(** ** One day, one separator *)

Section OneDay.

Context {RT : Runtime}.
Variable ib : option jsstring.
Variable hs : list jsstring.

Lemma at_index_last {A : Type} (front : list A) (p : A) (rest : list A) :
  at_index ((front ++ [p]) ++ rest) (Z.of_nat (List.length (front ++ [p])) - 1)
  = Some p.
Proof.
  unfold at_index. rewrite length_app. cbn [List.length].
  destruct (Z.ltb_spec (Z.of_nat (List.length front + 1) - 1) 0); [lia|].
  replace (Z.to_nat (Z.of_nat (List.length front + 1) - 1))
    with (List.length front) by lia.
  rewrite <- app_assoc. rewrite nth_error_app2 by lia.
  now rewrite Nat.sub_diag.
Qed.

Lemma later_rows_of_the_day (suf front : list Commit) (p : Commit) :
  (forall x, In x suf ->
     Z.abs (timestamp x) <= maxTime /\
     calendarDate (new_Date (timestamp x))
     = calendarDate (new_Date (timestamp p))) ->
  filter_Boolean
    (List.concat
       (mapi_from
          (fun c i => choiceRow ib hs c i ((front ++ [p]) ++ suf))
          (Z.of_nat (List.length (front ++ [p]))) suf))
  = List.map (choiceEntry ib hs) suf.
Proof.
  revert front p. induction suf as [|c r IH]; intros front p Hday;
    [reflexivity|].
  cbn [mapi_from List.concat List.map]. rewrite filter_Boolean_app.
  destruct (Hday c (or_introl eq_refl)) as [Hvalid Hsame].
  unfold choiceRow at 1.
  rewrite (same_day_no_separator c p _ _ (at_index_last front p (c :: r))
             Hvalid Hsame).
  cbn [filter_Boolean app]. unfold choiceEntry at 1. f_equal.
  specialize (IH (front ++ [p]) c).
  replace (((front ++ [p]) ++ [c]) ++ r) with ((front ++ [p]) ++ c :: r) in IH
    by (now rewrite <- (app_assoc (front ++ [p]) [c] r)).
  replace (Z.of_nat (List.length ((front ++ [p]) ++ [c])))
    with (Z.of_nat (List.length (front ++ [p])) + 1) in IH
    by (rewrite (length_app (front ++ [p]) [c]); simpl; lia).
  apply IH. intros x Hx. destruct (Hday x (or_intror Hx)) as [Hv Hs].
  split; [exact Hv|]. now rewrite Hs, Hsame.
Qed.

End OneDay.

(** X19: when the candidates have valid time stamps and all fall on the
    calendar day of the first one, the list of choices is one separator with
    this date, the entries of the candidates in their order, and the last
    separator: no separator stands between two commits of one day. *)
Theorem one_day_one_separator `{Runtime} (ib : option jsstring)
  (hs : list jsstring) (c : Commit) (cs : list Commit) :
  (forall x, In x (c :: cs) -> author x <> None) ->
  (forall x, In x cs ->
     Z.abs (timestamp x) <= maxTime /\
     calendarDate (new_Date (timestamp x))
     = calendarDate (new_Date (timestamp c))) ->
  choices ib hs (c :: cs)
  = ret (Separator (Some (formatDate (new_Date (timestamp c))))
         :: List.map (choiceEntry ib hs) (c :: cs) ++ [Separator None]).
Proof.
  intros Hauthors Hday. rewrite choices_defined by exact Hauthors.
  unfold flatMapi, mapi. cbn [mapi_from List.concat].
  rewrite filter_Boolean_app. unfold choiceRow at 1.
  rewrite dateSeparator_first. cbn [filter_Boolean app List.map].
  pose proof (later_rows_of_the_day ib hs cs [] c Hday) as Elater.
  cbn [app List.length] in Elater.
  change (Z.of_nat 1) with (0 + 1) in Elater.
  now rewrite Elater.
Qed.

Lemma one_day_one_separator_witness :
  @choices node_UTC None [] [february_commit; february_evening_commit]
  = ret [Separator (Some (js "Thu Feb 15 2024"));
         @choiceEntry node_UTC None [] february_commit;
         @choiceEntry node_UTC None [] february_evening_commit;
         Separator None].
Proof.
  apply (@one_day_one_separator node_UTC None [] february_commit
           [february_evening_commit]).
  - intros x [<-|[<-|[]]]; discriminate.
  - intros x [<-|[]]. split; [vm_compute; discriminate | reflexivity].
Defined.

(** ** The end of a run *)

Lemma offerClipboard_ends (w : World) (text : jsstring) :
  completion (offerClipboard w text) = ending w text /\
  In (console_log text) (trace (offerClipboard w text)).
Proof.
  unfold offerClipboard, ending.
  destruct (confirm w) as [[|]|]; [destruct (clipboard w text)| |];
    (split; [reflexivity | right; left; reflexivity]).
Qed.

(** X20: once the command is built the script prints it and ends by the
    answer to the confirmation: normally when the user declines or when the
    text is copied, with an error when the prompt is cancelled or when the
    clipboard fails. *)
Theorem run_ends_by_the_confirmation `{Runtime} (w : World)
  (inc : list jsstring) (candidates : list Commit) (shown : list Choice)
  (selected : list jsstring) (text : jsstring) :
  values_help w = false ->
  completion (fetch w) = Normal (inc, candidates) ->
  candidates <> [] ->
  completion (choices (includeBranch w) inc candidates) = Normal shown ->
  autocomplete w shown = Some selected ->
  selected <> [] ->
  completion
    (command (cherryPickBranch w) (toBranch w)
       (cherryPickCommits selected candidates)) = Normal text ->
  completion (main w) = ending w text /\
  In (console_log text) (trace (main w)).
Proof.
  intros Hhelp Efetch Hcands Eshown Hauto Hselected Etext.
  rewrite (main_after_fetch w Hhelp).
  pose proof (pick_after_choices w inc candidates shown Eshown) as Epick.
  rewrite Hauto in Epick. cbv zeta in Epick.
  assert (Hpicked : (Z.of_nat
                       (List.length (cherryPickCommits selected candidates))
                     =? 0) = false).
  { unfold cherryPickCommits, Array_sort.
    rewrite length_app, length_map.
    rewrite (Permutation_length (sort_defined_perm byTimestamp _)).
    destruct selected as [|h selected]; [contradiction|].
    cbn [List.map filter_Boolean undefineds List.filter].
    destruct (findCommit candidates h); cbn [List.length];
      apply Z.eqb_neq; lia. }
  rewrite Hpicked in Epick.
  destruct (offerClipboard_ends w text) as [Eend Hprinted].
  assert (Ecompletion : completion (pick w inc candidates) = ending w text).
  { rewrite Epick, completion_bind. cbn [emit completion snd].
    now rewrite completion_bind, Etext. }
  assert (Hin : In (console_log text) (trace (pick w inc candidates))).
  { rewrite Epick, trace_bind. cbn [emit completion snd].
    apply in_or_app. right. rewrite trace_bind, Etext.
    apply in_or_app. now right. }
  destruct candidates as [|c candidates]; [contradiction|].
  rewrite completion_bind, trace_bind, Efetch.
  change (Z.of_nat (List.length (c :: candidates)) =? 0) with false.
  cbv iota. split; [exact Ecompletion|].
  apply in_or_app. now right.
Qed.

Lemma run_ends_by_the_confirmation_witness :
  completion (@main node_UTC sample_world) = Normal tt.
Proof.
  eapply (proj1 (@run_ends_by_the_confirmation node_UTC sample_world
                   [] [february_commit; january_commit] _
                   [js "bbb2222bbb2222bbb2222bbb2222bbb2222bbb22";
                    js "aaa1111aaa1111aaa1111aaa1111aaa1111aaa11"] _
                   eq_refl eq_refl _ eq_refl eq_refl _ eq_refl)).
  Unshelve.
  - discriminate.
  - discriminate.
Defined.

(** ** The strings the shell receives *)


















